(** * zds-to-grav: header shifting and image localisation

    A shallow embedding of [src/zds_to_grav.py]: the regular expressions
    [re_title_*] and [re_image], Python's [re.sub] on them,
    [shift_markdown_headers], [download_and_replace_markdown_images] and
    the part of [zds_to_grav] that calls them, followed by the properties
    the specification states about them. *)

From Stdlib Require Import Ascii String Arith Lia Bool DecimalString DecimalNat.
From stdpp Require Import base option list gmap strings.

Open Scope list_scope.
Open Scope char_scope.

(** * Part I: the program *)

(** ** Texts *)

(** A Python [str] is modelled as the list of its characters; for text
    outside ASCII, of the bytes of its UTF-8 encoding, which the patterns
    below, all written in ASCII, cut at the same places. *)
Abbreviation str := (list ascii).

Definition txt (s : string) : str := list_ascii_of_string s.

Definition LF : ascii := "010".
Definition CR : ascii := "013".

(** [s] without the prefix [w], when it starts with it. *)
Fixpoint strip_prefix (w s : str) : option str :=
  match w with
  | [] => Some s
  | c :: w' =>
      match s with
      | d :: s' => if Ascii.eqb d c then strip_prefix w' s' else None
      | [] => None
      end
  end.

(** [s.startswith(w)] *)
Definition startswith (w s : str) : bool :=
  match strip_prefix w s with Some _ => true | None => false end.

(** [s.split(c)] for a separator of one character. *)
Fixpoint split_on (c : ascii) (s : str) : list str :=
  match s with
  | [] => [[]]
  | d :: s' =>
      if Ascii.eqb d c then [] :: split_on c s'
      else match split_on c s' with
           | l :: ls => (d :: l) :: ls
           | [] => [[d]]
           end
  end.

(** [s.split(c)[-1]] *)
Definition last_field (c : ascii) (s : str) : str :=
  List.last (split_on c s) [].

(** ["\n".join(ls)] *)
Fixpoint join (ls : list str) : str :=
  match ls with
  | [] => []
  | l :: ls' =>
      match ls' with
      | [] => l
      | _ :: _ => l ++ LF :: join ls'
      end
  end.

(** [s.split("\n")] *)
Definition lines (s : str) : list str := split_on LF s.

(** ** Regular expressions, as far as the program uses them *)

Module Re.

(** The one-character items of the patterns: [.], a literal, [[^c]]. *)
Inductive charclass :=
| Any
| Ch (c : ascii)
| NotCh (c : ascii).

(** Without [re.DOTALL] the dot accepts every character but the line
    feed. *)
Definition accepts (k : charclass) (c : ascii) : bool :=
  match k with
  | Any => negb (Ascii.eqb c LF)
  | Ch a => Ascii.eqb c a
  | NotCh a => negb (Ascii.eqb c a)
  end.

(** Every quantifier of the source ([?], [+], [{2,}]) is applied to a
    single character item, so repetition is kept at that level. *)
Inductive regex :=
| Eps                          (* the empty pattern *)
| One (k : charclass)
| Bos                          (* \A *)
| Eos                          (* \Z *)
| Seq (r1 r2 : regex)
| Alt (r1 r2 : regex)          (* r1|r2 *)
| Opt (k : charclass)          (* k?, greedy *)
| Rep (n : nat) (k : charclass) (* k{n,}, greedy; k+ is Rep 1 k *)
| Grp (i : nat) (r : regex).   (* i-th capture group *)

(** Capture groups, most recent binding first. *)
Definition groups := list (nat * str).

Fixpoint group (g : groups) (i : nat) : str :=
  match g with
  | [] => []
  | (j, v) :: g' => if Nat.eqb i j then v else group g' i
  end.

(** What lies between two positions of the same text, the second given
    by the suffix that starts there. *)
Definition consumed (s s' : str) : str := take (length s - length s') s.

(** A continuation receives: is the position still the start of the
    text, the rest of the text, the groups. *)
Definition cont := bool -> str -> groups -> option (str * groups).

(** Greedy repetition with backtracking: take one more character first,
    stop here only when that fails and the minimum is reached. *)
Fixpoint rep (k : charclass) (n : nat) (bos : bool) (s : str) (g : groups)
    (κ : cont) : option (str * groups) :=
  match s with
  | c :: s' =>
      if accepts k c then
        match rep k (pred n) false s' g κ with
        | Some r => Some r
        | None => match n with 0 => κ bos s g | S _ => None end
        end
      else match n with 0 => κ bos s g | S _ => None end
  | [] => match n with 0 => κ bos s g | S _ => None end
  end.

(** The backtracking matcher of Python's [re]: alternatives and
    quantifiers are tried in priority order, the first success wins. *)
Fixpoint run (r : regex) (bos : bool) (s : str) (g : groups) (κ : cont)
    : option (str * groups) :=
  match r with
  | Eps => κ bos s g
  | One k =>
      match s with
      | c :: s' => if accepts k c then κ false s' g else None
      | [] => None
      end
  | Bos => if bos then κ bos s g else None
  | Eos => match s with [] => κ bos s g | _ :: _ => None end
  | Seq r1 r2 => run r1 bos s g (fun b' s' g' => run r2 b' s' g' κ)
  | Alt r1 r2 =>
      match run r1 bos s g κ with
      | Some x => Some x
      | None => run r2 bos s g κ
      end
  | Opt k =>
      match s with
      | c :: s' =>
          if accepts k c then
            match κ false s' g with
            | Some x => Some x
            | None => κ bos s g
            end
          else κ bos s g
      | [] => κ bos s g
      end
  | Rep n k => rep k n bos s g κ
  | Grp i r =>
      run r bos s g (fun b' s' g' => κ b' s' ((i, consumed s s') :: g'))
  end.

(** A match object: [whole] is [match.group(0)]. *)
Record rmatch := Match { whole : str; grps : groups }.

Definition mgroup (m : rmatch) (i : nat) : str :=
  match i with 0 => whole m | S _ => group (grps m) i end.

(** The end of the pattern: the match is found. *)
Definition accept : cont := fun _ s' g => Some (s', g).

(** [pattern.match] at one position. *)
Definition try_match (re : regex) (bos : bool) (s : str) : option rmatch :=
  match run re bos s [] accept with
  | Some (s', g) => Some (Match (consumed s s') g)
  | None => None
  end.

(** The pieces [re.sub] cuts a text into: characters copied as they are
    and matches handed to the replacement, from left to right. *)
Inductive piece :=
| Text (c : ascii)
| Hit (m : rmatch).

(** [count] as Python reads it: 0 is no limit. *)
Definition limit_of_count (count : nat) : option nat :=
  match count with 0 => None | S _ => Some count end.

Definition exhausted (limit : option nat) : bool :=
  match limit with Some 0 => true | _ => false end.

Definition spend (limit : option nat) : option nat :=
  match limit with Some n => Some (pred n) | None => None end.

(** The scan of [re.sub]: the leftmost match from the current position,
    then on from its end; [skip] counts the characters of the current
    match still to be passed over. The clause for an empty match is
    never reached by the patterns of this program, each of which needs
    at least one character. *)
Fixpoint scan (re : regex) (limit : option nat) (bos : bool) (skip : nat)
    (s : str) : list piece :=
  match skip, s with
  | S k, _ :: s' => scan re limit false k s'
  | S _, [] => []
  | 0, _ =>
      match (if exhausted limit then None else try_match re bos s) with
      | Some m =>
          Hit m ::
          match s with
          | [] => []
          | c :: s' =>
              match length (whole m) with
              | 0 => Text c :: scan re (spend limit) false 0 s'
              | S k => scan re (spend limit) false k s'
              end
          end
      | None =>
          match s with
          | [] => []
          | c :: s' => Text c :: scan re limit false 0 s'
          end
      end
  end.

Definition pieces (re : regex) (count : nat) (s : str) : list piece :=
  scan re (limit_of_count count) true 0 s.

(** [pattern.sub(repl, string, count)] for a replacement function. *)
Definition render (repl : rmatch -> str) (p : piece) : str :=
  match p with
  | Text c => [c]
  | Hit m => repl m
  end.

Definition sub (re : regex) (repl : rmatch -> str) (s : str) (count : nat)
    : str :=
  concat (map (render repl) (pieces re count s)).

(** Replacement templates such as [r"\1### \2\3"]. *)
Inductive titem :=
| TLit (s : str)
| TGrp (i : nat).

Definition expand (t : list titem) (m : rmatch) : str :=
  concat (map (fun it => match it with
                         | TLit s => s
                         | TGrp i => mgroup m i
                         end) t).

(** A literal run of characters. *)
Fixpoint lit (w : str) : regex :=
  match w with
  | [] => Eps
  | c :: w' => Seq (One (Ch c)) (lit w')
  end.

Declare Scope re_scope.
Delimit Scope re_scope with re.
Bind Scope re_scope with regex.
Infix "+>" := Seq (at level 45, right associativity) : re_scope.
Infix "|||" := Alt (at level 50, left associativity) : re_scope.

End Re.

Import Re.

(** ** The header patterns (lines 274 to 281) *)

Definition hash : ascii := "#".
Definition dash : ascii := "-".
Definition equal : ascii := "=".

(** [(\A|\r?\n)] and [(\r?\n|\Z)] *)
Definition line_start : regex := (Bos ||| Opt (Ch CR) +> One (Ch LF))%re.
Definition line_end : regex := (Opt (Ch CR) +> One (Ch LF) ||| Eos)%re.

Definition re_title_5 : regex :=
  (Grp 1 line_start +> lit (txt "##### ") +> Grp 2 (Rep 1 Any) +> Grp 3 line_end)%re.
Definition re_title_4 : regex :=
  (Grp 1 line_start +> lit (txt "#### ") +> Grp 2 (Rep 1 Any) +> Grp 3 line_end)%re.
Definition re_title_3 : regex :=
  (Grp 1 line_start +> lit (txt "### ") +> Grp 2 (Rep 1 Any) +> Grp 3 line_end)%re.
Definition re_title_2 : regex :=
  (Grp 1 line_start +> lit (txt "## ") +> Grp 2 (Rep 1 Any) +> Grp 3 line_end)%re.
Definition re_title_1 : regex :=
  (Grp 1 line_start +> lit (txt "# ") +> Grp 2 (Rep 1 Any) +> Grp 3 line_end)%re.

(** [(\A|\r?\n)(.+)\r?\n-{2,}(\r?\n|\Z)] *)
Definition re_title_2_long : regex :=
  (Grp 1 line_start +> Grp 2 (Rep 1 Any) +> Opt (Ch CR) +> One (Ch LF)
   +> Rep 2 (Ch dash) +> Grp 3 line_end)%re.

(** [(\A|\r?\n)(.+)\r?\n(={2,})(\r?\n|\Z)] *)
Definition re_title_1_long : regex :=
  (Grp 1 line_start +> Grp 2 (Rep 1 Any) +> Opt (Ch CR) +> One (Ch LF)
   +> Grp 3 (Rep 2 (Ch equal)) +> Grp 4 line_end)%re.

(** ** [shift_markdown_headers] (lines 284 to 337) *)

Definition repl_title_1_long (m : rmatch) : str :=
  mgroup m 1 ++ mgroup m 2 ++ [LF] ++ repeat dash (length (mgroup m 3))
  ++ mgroup m 4.

Definition shift_markdown_headers (markdown_source : str) : str :=
  let markdown_source :=
    sub re_title_5 (expand [TGrp 1; TLit (txt "###### "); TGrp 2; TGrp 3])
      markdown_source 0 in
  let markdown_source :=
    sub re_title_4 (expand [TGrp 1; TLit (txt "##### "); TGrp 2; TGrp 3])
      markdown_source 0 in
  let markdown_source :=
    sub re_title_3 (expand [TGrp 1; TLit (txt "#### "); TGrp 2; TGrp 3])
      markdown_source 0 in
  let markdown_source :=
    sub re_title_2 (expand [TGrp 1; TLit (txt "### "); TGrp 2; TGrp 3])
      markdown_source 0 in
  let markdown_source :=
    sub re_title_1 (expand [TGrp 1; TLit (txt "## "); TGrp 2; TGrp 3])
      markdown_source 0 in
  let markdown_source :=
    sub re_title_2_long (expand [TGrp 1; TLit (txt "### "); TGrp 2; TGrp 3])
      markdown_source 0 in
  let markdown_source :=
    sub re_title_1_long repl_title_1_long markdown_source 0 in
  markdown_source.

(** ** Effects: exceptions and state *)

Inductive exn :=
| AttributeError (what : string)
| RequestException (url : str).

Inductive result (A : Type) :=
| Ok (a : A)
| Raise (e : exn).
Arguments Ok {A} a.
Arguments Raise {A} e.

(** A computation on a state [S] that returns an [A] or raises; the state
    reached is kept in both cases, as Python keeps what was mutated
    before an exception. *)
Definition M (S A : Type) : Type := S -> result A * S.

Definition ret {S A} (a : A) : M S A := fun s => (Ok a, s).

Definition bind {S A B} (c : M S A) (k : A -> M S B) : M S B :=
  fun s =>
    match c s with
    | (Ok a, s') => k a s'
    | (Raise e, s') => (Raise e, s')
    end.

Definition raise {S A} (e : exn) : M S A := fun s => (Raise e, s).

Notation "x <- c ;; k" := (bind c (fun x => k))
  (at level 100, c at next level, right associativity).
Notation "c ;; k" := (bind c (fun _ => k))
  (at level 100, right associativity).

(** ** The world around the program *)

(** What [requests.get(url, stream=True)] comes back with: a response,
    of which the program reads [r.ok] and [r.content], or no response at
    all, in which case [requests] raises. *)
Inductive outcome :=
| Reply (ok : bool) (content : str)
| NoReply.

(** The libraries and the network the program calls: the web as a
    function of the URL, [hashlib.sha256(...).hexdigest()], and the
    text transformation of [slugify.Slugify(to_lower=True)]. *)
Record env := Env {
  requests_get : str -> outcome;
  sha256_hexdigest : str -> str;
  slugify_text : str -> str
}.

(** A file opened for writing: the directory [to], the name, and the
    bytes copied into it. *)
Record written := Written { w_dir : str; w_name : str; w_bytes : str }.

(** What the program changes: the module-level dictionary
    [downloaded_images], the files it writes, what it prints ([true] for
    the error stream), and the URLs it requests; the last three in the
    order of the events. *)
Record world := World {
  downloaded_images : gmap str str;
  files : list written;
  console : list (bool * str);
  requested : list str
}.

(** The state at the start of the process: [downloaded_images = {}]
    (line 341). *)
Definition initial_world : world := World ∅ [] [] [].

(** The state inside one call of
    [download_and_replace_markdown_images]: the [uids] of its
    [UniqueSlugify] instance, and the world. *)
Definition call_state : Type := list str * world.

Definition click_echo (message : str) : M call_state unit :=
  fun '(uids, w) =>
    (Ok tt, (uids, World (downloaded_images w) (files w)
                     (console w ++ [(false, message)]) (requested w))).

(** [click.secho(message, err=True, fg="red")] *)
Definition click_secho_err (message : str) : M call_state unit :=
  fun '(uids, w) =>
    (Ok tt, (uids, World (downloaded_images w) (files w)
                     (console w ++ [(true, message)]) (requested w))).

(** [click] has [echo] and [secho] and no [echos]: looking the
    attribute up raises, before any argument is evaluated. *)
Definition click_echos : M call_state unit :=
  raise (AttributeError "module 'click' has no attribute 'echos'").

(** [requests.get(url, stream=True)], then [r.ok] and [r.content]. *)
Definition get (E : env) (url : str) : M call_state (bool * str) :=
  fun '(uids, w) =>
    let w' := World (downloaded_images w) (files w) (console w)
                (requested w ++ [url]) in
    match requests_get E url with
    | Reply ok content => (Ok (ok, content), (uids, w'))
    | NoReply => (Raise (RequestException url), (uids, w'))
    end.

Definition read_downloaded_images : M call_state (gmap str str) :=
  fun '(uids, w) => (Ok (downloaded_images w), (uids, w)).

(** [downloaded_images[image_hash] = image_filename] *)
Definition record_image (image_hash image_filename : str)
    : M call_state unit :=
  fun '(uids, w) =>
    (Ok tt, (uids, World (<[image_hash := image_filename]> (downloaded_images w))
                     (files w) (console w) (requested w))).

(** [with open(to / image_filename, "wb") as f: shutil.copyfileobj(image, f)] *)
Definition write_image (to image_filename image : str) : M call_state unit :=
  fun '(uids, w) =>
    (Ok tt, (uids, World (downloaded_images w)
                     (files w ++ [Written to image_filename image])
                     (console w) (requested w))).

(** ** [UniqueSlugify] *)

(** ["%d" % count] *)
Definition decimal (n : nat) : str :=
  txt (NilEmpty.string_of_uint (Nat.to_uint n)).

(** The names tried in turn: the slug itself, then the slug with [-1],
    [-2], ... *)
Definition candidate (text : str) (count : nat) : str :=
  match count with
  | 0 => text
  | S _ => text ++ dash :: decimal count
  end.

(** [while newtext in self.uids: count += 1; newtext = ...]. The loop
    ends within [len(uids)] rounds, after which the name at hand cannot
    be one of [uids]; [fuel] counts the rounds left. *)
Fixpoint first_free (uids : list str) (text : str) (count fuel : nat) : str :=
  match fuel with
  | 0 => candidate text count
  | S fuel' =>
      if bool_decide (candidate text count ∈ uids)
      then first_free uids text (S count) fuel'
      else candidate text count
  end.

(** [slugify(text)] on the instance of the call: the new name is added
    to [uids]. *)
Definition slugify (E : env) (text : str) : M call_state str :=
  fun '(uids, w) =>
    let newtext := first_free uids (slugify_text E text) 0 (length uids) in
    (Ok newtext, (uids ++ [newtext], w)).

(** ** [download_and_replace_markdown_images] (lines 340 to 386) *)

(** [!\[([^\]]+)\]\(([^\)]+)\)] *)
Definition re_image : regex :=
  (lit (txt "![") +> Grp 1 (Rep 1 (NotCh "]")) +> lit (txt "](")
   +> Grp 2 (Rep 1 (NotCh ")")) +> One (Ch ")"))%re.

(** The value of [re.MULTILINE], which line 386 passes where
    [pattern.sub] takes [count]. *)
Definition re_MULTILINE : nat := 8.

(** [f"![{image_alt}]({image_filename})"] *)
Definition image_markup (image_alt image_filename : str) : str :=
  txt "![" ++ image_alt ++ txt "](" ++ image_filename ++ txt ")".

Definition repl_and_download_image (E : env) (to : str) (m : rmatch)
    : M call_state str :=
  let image_alt := mgroup m 1 in
  let image_url := mgroup m 2 in
  image_url <-
    (if negb (startswith (txt "http://") image_url)
        && negb (startswith (txt "https://") image_url)
     then
       if startswith (txt "/") image_url
       then ret (txt "https://zestedesavoir.com" ++ image_url)
       else (click_echos ;; ret image_url)
     else ret image_url) ;;
  click_echo (txt "Downloading and replacing image " ++ image_alt
              ++ txt " from " ++ image_url ++ txt "…") ;;
  r <- get E image_url ;;
  if negb (fst r) then
    click_secho_err (txt "Unable to download image, skipping") ;;
    ret (mgroup m 0)
  else
    let image := snd r in
    let image_hash := sha256_hexdigest E image in
    let image_ext := "." :: last_field "." image_url in
    registry <- read_downloaded_images ;;
    match registry !! image_hash with
    | Some image_filename => ret (image_markup image_alt image_filename)
    | None =>
        slug <- slugify E image_alt ;;
        let image_filename := slug ++ image_ext in
        record_image image_hash image_filename ;;
        write_image to image_filename image ;;
        ret (image_markup image_alt image_filename)
    end.

(** [pattern.sub] with a replacement that has effects: the pieces are
    handled from left to right, and an exception ends the pass. The
    result keeps one text per piece. *)
Fixpoint sub_pieces {S : Type} (repl : rmatch -> M S str) (ps : list piece)
    : M S (list str) :=
  match ps with
  | [] => ret []
  | Text c :: ps' =>
      outs <- sub_pieces repl ps' ;;
      ret ([c] :: outs)
  | Hit m :: ps' =>
      out <- repl m ;;
      outs <- sub_pieces repl ps' ;;
      ret (out :: outs)
  end.

(** One call, piece by piece: a new [UniqueSlugify] (line 345), then the
    substitution of line 386. *)
Definition localize_pieces (E : env) (markdown_source to : str)
    : M world (list str) :=
  fun w =>
    match sub_pieces (repl_and_download_image E to)
            (pieces re_image re_MULTILINE markdown_source) ([], w) with
    | (r, (_, w')) => (r, w')
    end.

Definition download_and_replace_markdown_images (E : env)
    (markdown_source to : str) : M world str :=
  outs <- localize_pieces E markdown_source to ;;
  ret (concat outs).

(** ** The fragments of one run (lines 198 to 222 of [zds_to_grav]) *)

(** An entry of [manifest["children"]], with the text [get_content]
    reads for it. *)
Record child := Child { c_object : str; c_title : str; c_text : str }.

(** The texts [get_content] gives for the entries the manifest names. *)
Record archive := Archive {
  introduction : option str;
  children : option (list child);
  conclusion : option str
}.

Definition is_extract (c : child) : bool :=
  bool_decide (c_object c = txt "extract").

Fixpoint add_children (E : env) (cs : list child) (to : str)
    (markdown_content : str) : M world str :=
  match cs with
  | [] => ret markdown_content
  | c :: cs' =>
      if negb (is_extract c) then add_children E cs' to markdown_content
      else
        let markdown_content := markdown_content ++ [LF; LF; LF] in
        let markdown_content :=
          markdown_content ++ txt "# " ++ c_title c ++ [LF; LF] in
        text <- download_and_replace_markdown_images E
                  (shift_markdown_headers (c_text c)) to ;;
        add_children E cs' to (markdown_content ++ text)
  end.

Definition build_markdown_content (E : env) (a : archive) (to : str)
    : M world str :=
  markdown_content <-
    match introduction a with
    | Some text => download_and_replace_markdown_images E text to
    | None => ret []
    end ;;
  markdown_content <-
    match children a with
    | Some cs => add_children E cs to markdown_content
    | None => ret markdown_content
    end ;;
  match conclusion a with
  | Some text =>
      let markdown_content :=
        markdown_content ++ [LF; LF; LF] ++ txt "------" ++ [LF; LF; LF] in
      text <- download_and_replace_markdown_images E text to ;;
      ret (markdown_content ++ text)
  | None => ret markdown_content
  end.

(** ** [get_content] (lines 389 and 390) *)

(** [io.TextIOWrapper] with its default [newline=None] reads in
    universal newlines mode: a carriage return with the line feed behind
    it, and a carriage return alone, reach the program as one line
    feed. *)
Fixpoint universal_newlines (s : str) : str :=
  match s with
  | [] => []
  | c :: s' =>
      if Ascii.eqb c CR then
        LF :: match s' with
              | d :: s'' =>
                  if Ascii.eqb d LF then universal_newlines s''
                  else universal_newlines s'
              | [] => []
              end
      else c :: universal_newlines s'
  end.

(** The lines the wrapper yields when iterated: each with its line
    feed, the last one possibly without. *)
Fixpoint readlines (s : str) : list str :=
  match s with
  | [] => []
  | c :: s' =>
      if Ascii.eqb c LF then [LF] :: readlines s'
      else match readlines s' with
           | [] => [[c]]
           | l :: ls => (c :: l) :: ls
           end
  end.

(** The characters [str.strip()] takes for white space, each as the
    bytes of its UTF-8 encoding: U+0009 to U+000D, U+001C to U+0020,
    U+0085, U+00A0, U+1680, U+2000 to U+200A, U+2028, U+2029, U+202F,
    U+205F, U+3000. *)
Definition whitespace : list str :=
  map (fun c => [c])
    ["009"; "010"; "011"; "012"; "013"; "028"; "029"; "030"; "031"; " "]%char
  ++ [["194"; "133"]; ["194"; "160"]; ["225"; "154"; "128"]]%char
  ++ map (fun c => ["226"; "128"; c]%char)
       ["128"; "129"; "130"; "131"; "132"; "133"; "134"; "135"; "136";
        "137"; "138"; "168"; "169"; "175"]%char
  ++ [["226"; "129"; "159"]; ["227"; "128"; "128"]]%char.

(** The text behind the first of the words [ws] that [s] starts with. *)
Fixpoint behind_one_of (ws : list str) (s : str) : option str :=
  match ws with
  | [] => None
  | w :: ws' =>
      match strip_prefix w s with
      | Some rest => Some rest
      | None => behind_one_of ws' s
      end
  end.

(** Words of [ws] are taken off the front as long as there is one;
    [fuel] bounds the rounds, and the length of the text is enough of
    it. *)
Fixpoint strip_front (ws : list str) (fuel : nat) (s : str) : str :=
  match fuel with
  | 0 => s
  | S fuel' =>
      match behind_one_of ws s with
      | Some rest => strip_front ws fuel' rest
      | None => s
      end
  end.

Definition lstrip (s : str) : str := strip_front whitespace (length s) s.

Definition rstrip (s : str) : str :=
  rev (strip_front (map (@rev ascii) whitespace) (length s) (rev s)).

(** [str.strip()] *)
Definition strip (s : str) : str := rstrip (lstrip s).

(** [get_content(f)], for the text [decoded] that the decoder of the
    wrapper makes of the bytes [f.read()]. *)
Definition get_content (decoded : str) : str :=
  strip (concat (readlines (universal_newlines decoded))).

(** ** [zds_to_grav] for an archive on disk (lines 158 to 271) *)

(** [s.rstrip(chars)] *)
Fixpoint lstrip_chars (chars : list ascii) (s : str) : str :=
  match s with
  | c :: s' => if bool_decide (c ∈ chars) then lstrip_chars chars s' else s
  | [] => []
  end.

Definition rstrip_chars (chars : list ascii) (s : str) : str :=
  rev (lstrip_chars chars (rev s)).

(** [posixpath.dirname], which [Path(...).parent] is: the text up to
    the last slash, without the slashes at its end unless it is made of
    slashes only. *)
Definition dirname (p : str) : str :=
  let head := take (length p - length (last_field "/" p)) p in
  if bool_decide (head <> []) && negb (forallb (Ascii.eqb "/") head)
  then rstrip_chars ["/"] head
  else head.

(** [posixpath.join(a, b)], which [a / b] is for a [Path]. *)
Definition path_join (a b : str) : str :=
  if startswith (txt "/") b then b
  else if bool_decide (a = []) || startswith (txt "/") (rev a) then a ++ b
  else a ++ "/" :: b.

(** [str(n)] for an [int] *)
Definition str_of_int (n : Z) : str :=
  if Z.ltb n 0 then "-" :: decimal (Z.to_nat (- n)) else decimal (Z.to_nat n).

(** What the program reads of [manifest.json], besides the entries of
    [archive]: a manifest that has the keys [version], an integer, and
    [type], a string, and may have [slug]. *)
Record manifest := Manifest {
  m_version : Z;
  m_type : str;
  m_slug : option str
}.

(** Lines 158 and 159: without [--to], the directory of the archive. *)
Definition default_to (zds_archive : str) (to : option str) : str :=
  match to with
  | Some (c :: to') => c :: to'
  | _ => dirname zds_archive
  end.

(** Lines 161 and 194: [to.rstrip("/") + "/"], then [to += slug + "/"]. *)
Definition output_directory (to slug : str) : str :=
  (rstrip_chars ["/"] to ++ ["/"]) ++ slug ++ ["/"].

(** [click.echo] and [click.secho] outside the callback. *)
Definition echo (err : bool) (message : str) : M world unit :=
  fun w =>
    (Ok tt, World (downloaded_images w) (files w)
              (console w ++ [(err, message)]) (requested w)).

(** [with open(to / name, "w") as f: f.write(content)] *)
Definition write_file (to name content : str) : M world unit :=
  fun w =>
    (Ok tt, World (downloaded_images w) (files w ++ [Written to name content])
              (console w) (requested w)).

(** [time.time()], where [time] is the class that line 12 imports from
    [datetime]: it has no attribute of that name. *)
Definition time_time : M world Z :=
  raise (AttributeError "type object 'datetime.time' has no attribute 'time'").

(** Lines 187 to 192. An empty [--slug] counts as none. *)
Definition choose_slug (slug : option str) (m : manifest) : M world str :=
  match slug with
  | Some (c :: s) => ret (c :: s)
  | _ =>
      match m_slug m with
      | Some s => ret s
      | None =>
          t <- time_time ;;
          ret (txt "unnamed-content-" ++ str_of_int t)
      end
  end.

(** Line 260: [template_name + ("." + lang if lang else "") + ".md"] *)
Definition markdown_name (template_name : str) (lang : option str) : str :=
  template_name
  ++ match lang with Some (c :: l) => "." :: c :: l | _ => [] end
  ++ txt ".md".

(** Lines 161 to 266. [m] and [a] are what is read from the archive:
    the manifest, and the texts [get_content] returns for the entries
    it names; [yaml] is what [yaml.dump] returns for the front matter
    of lines 225 to 246. Making the directory ([to.mkdir_p()]) leaves
    no trace in the world, which records the files written. *)
Definition convert (E : env) (yaml : str) (m : manifest) (a : archive)
    (template_name : str) (lang slug : option str) (to : str)
    : M world unit :=
  if Z.ltb (m_version m) 2 then
    echo true (txt "Unsupported manifest version " ++ str_of_int (m_version m)
               ++ txt " (only version 2 is supported)")
  else if negb (bool_decide (m_type m ∈ [txt "ARTICLE"; txt "OPINION"])) then
    echo true (txt "Unsupported content type " ++ m_type m
               ++ txt " (only articles and opinions are supported at the moment); aborting.")
  else
    slug <- choose_slug slug m ;;
    let to := output_directory to slug in
    markdown_content <- build_markdown_content E a to ;;
    let markdown_frontmatter_raw :=
      txt "---" ++ [LF] ++ yaml ++ txt "---" ++ [LF; LF] in
    let markdown_content := markdown_frontmatter_raw ++ strip markdown_content in
    let markdown_filename := markdown_name template_name lang in
    write_file to markdown_filename markdown_content ;;
    echo false (txt "Markdown file wrote to " ++ path_join to markdown_filename
                ++ txt " successfully").

(** [str(e)]; [request_text] is the text of an exception of
    [requests]. *)
Definition exn_text (request_text : str -> str) (e : exn) : str :=
  match e with
  | AttributeError what => txt what
  | RequestException url => request_text url
  end.

(** Lines 54 and 267 to 271: an exception is reported on the error
    stream and raised again. *)
Definition reporting (request_text : str -> str) (c : M world unit)
    : M world unit :=
  fun w =>
    match c w with
    | (Raise e, w') =>
        (Raise e,
         World (downloaded_images w') (files w')
           (console w' ++ [(true, txt "Error while processing archive: "
                                  ++ exn_text request_text e)])
           (requested w'))
    | (Ok x, w') => (Ok x, w')
    end.

(** [zds_to_grav] called with the path of an archive, not a URL. *)
Definition zds_to_grav_archive (E : env) (request_text : str -> str)
    (yaml : str) (m : manifest) (a : archive)
    (zds_archive template_name : str) (lang slug to : option str)
    : M world unit :=
  reporting request_text
    (convert E yaml m a template_name lang slug (default_to zds_archive to)).

(** * Part II: the header passes, line by line

    The definitions below describe on the lines of a text what one
    [pattern.sub] of [shift_markdown_headers] does; Part III proves that
    they describe it. *)

Definition lf_free (l : str) : Prop := LF ∉ l.

(** The line feed in front of further lines. *)
Definition sep (ls : list str) : str :=
  match ls with [] => [] | _ :: _ => [LF] end.

Definition more (ls : list str) : bool :=
  match ls with [] => false | _ :: _ => true end.

(** What is left of a text behind the end of a line: nothing, or a line
    feed and further lines. *)
Definition line_tail (T : str) : Prop := T = [] \/ exists T', T = LF :: T'.

(** Is the position [j] characters into the text still its start. *)
Definition at_start (bos : bool) (j : nat) : bool :=
  match j with 0 => bos | S _ => false end.

(** One pass on the lines of a text. [lm] tells, from a line and the
    lines after it, whether the pattern matches there: how many lines
    the match takes, and the lines written in their place. [avail] tells
    whether the line break in front of the current line is still there
    to start a match ([true] as well at the start of the text): a match
    takes the line break behind its last line with it. [skip] counts the
    lines still covered by the last match. *)
Fixpoint walk (lm : list str -> option (nat * list str)) (avail : bool)
    (skip : nat) (ls : list str) : list str :=
  match ls with
  | [] => []
  | l :: ls' =>
      match skip with
      | S k => walk lm false k ls'
      | 0 =>
          match (if avail then lm ls else None) with
          | Some (n, out) => out ++ walk lm false (pred n) ls'
          | None => l :: walk lm true 0 ls'
          end
      end
  end.

(** *** ATX headers *)

(** The body of [re_title_k] behind [(\A|\r?\n)], for the marker [w]
    (such as ["## "]), and its replacement, which writes [w']. *)
Definition atx_body (w : str) : regex :=
  (lit w +> Grp 2 (Rep 1 Any) +> Grp 3 line_end)%re.

Definition atx_repl (w' : str) : rmatch -> str :=
  expand [TGrp 1; TLit w'; TGrp 2; TGrp 3].

(** A line is a header of the pass when it starts with the marker and
    goes on for at least one character. *)
Definition atx_title (w l : str) : option str :=
  match strip_prefix w l with
  | Some (c :: t) => Some (c :: t)
  | _ => None
  end.

Definition atx_lm (w w' : str) (ls : list str) : option (nat * list str) :=
  match ls with
  | l :: _ =>
      match atx_title w l with
      | Some t => Some (1, [w' ++ t])
      | None => None
      end
  | [] => None
  end.

Definition atx_lines (w w' : str) : list str -> list str :=
  walk (atx_lm w w') true 0.

(** *** Setext headers *)

(** Length of the longest run of accepted characters at the head. *)
Fixpoint run_len (k : charclass) (s : str) : nat :=
  match s with
  | c :: s' => if accepts k c then S (run_len k s') else 0
  | [] => 0
  end.

(** An underline: two marks or more, then nothing, or a carriage
    return when a line feed follows. Gives the number of marks and
    what follows them on the line. *)
Definition underline (d : ascii) (u : str) (followed : bool)
    : option (nat * str) :=
  let n := run_len (Ch d) u in
  if Nat.leb 2 n then
    match drop n u with
    | [] => Some (n, [])
    | [c] => if Ascii.eqb c CR && followed then Some (n, [CR]) else None
    | _ :: _ :: _ => None
    end
  else None.

(** The body of the two Setext patterns behind [(\A|\r?\n)]: [R] is what
    follows [(.+)\r?\n]. *)
Definition setext_body (R : regex) : regex :=
  (Grp 2 (Rep 1 Any) +> Opt (Ch CR) +> One (Ch LF) +> R)%re.

Definition s2_rest : regex := (Rep 2 (Ch dash) +> Grp 3 line_end)%re.

Definition s2_repl : rmatch -> str :=
  expand [TGrp 1; TLit (txt "### "); TGrp 2; TGrp 3].

(** Level 2: a line that is not empty, over an underline of dashes,
    becomes one line. *)
Definition s2_lm (ls : list str) : option (nat * list str) :=
  match ls with
  | (c :: t) :: u :: rest =>
      match underline dash u (more rest) with
      | Some (n, r) => Some (2, [txt "### " ++ (c :: t) ++ r])
      | None => None
      end
  | _ => None
  end.

Definition s1_rest : regex := (Grp 3 (Rep 2 (Ch equal)) +> Grp 4 line_end)%re.

(** Level 1: the underline of equal signs becomes one of as many
    dashes. *)
Definition s1_lm (ls : list str) : option (nat * list str) :=
  match ls with
  | (c :: t) :: u :: rest =>
      match underline equal u (more rest) with
      | Some (n, r) => Some (2, [c :: t; repeat dash n ++ r])
      | None => None
      end
  | _ => None
  end.

(** *** All seven passes *)

Definition shift_lines (ls : list str) : list str :=
  let ls := atx_lines (txt "##### ") (txt "###### ") ls in
  let ls := atx_lines (txt "#### ") (txt "##### ") ls in
  let ls := atx_lines (txt "### ") (txt "#### ") ls in
  let ls := atx_lines (txt "## ") (txt "### ") ls in
  let ls := atx_lines (txt "# ") (txt "## ") ls in
  let ls := walk s2_lm true 0 ls in
  walk s1_lm true 0 ls.

(** *** Blank lines *)

(** What a pass needs for that: no match starts on a blank line, none
    takes one in, and none looks beyond one. *)
Record local (lm : list str -> option (nat * list str)) : Prop := Local {
  local_blank : forall ls, lm ([] :: ls) = None;
  local_count : forall ls n out, lm ls = Some (n, out) -> out <> [];
  local_before : forall xs n out,
    lm (xs ++ [[]]) = Some (n, out) -> 1 <= n <= length xs;
  local_beyond : forall xs ys, xs <> [] -> lm (xs ++ [] :: ys) = lm (xs ++ [[]])
}.

(** A rewriting of lines that treats what is in front of a blank line
    and what is behind it apart. *)
Definition splits (f : list str -> list str) : Prop :=
  forall xs ys, xs <> [] ->
  exists W, W <> [] /\ f (xs ++ [[]]) = W ++ [[]] /\ f (xs ++ [] :: ys) = W ++ [] :: f ys.

(** *** A Setext header: a line over [n] marks *)

Definition setext (t : str) (d : ascii) (n : nat) : str := t ++ LF :: repeat d n.

(** *** Documents of ATX headers and plain lines *)

(** [k] marks and a space *)
Definition marker (k : nat) : str := repeat hash k ++ [" "].




Definition is_header_line (k : nat) (l : str) : bool :=
  match atx_title (marker k) l with Some _ => true | None => false end.







(** Not an ATX header of one of the levels that are shifted. *)
Definition not_atx_header (l : str) : bool :=
  negb (existsb (fun k => is_header_line k l) [1; 2; 3; 4; 5]).

(** ** The least length of a match *)

Fixpoint min_len (r : regex) : nat :=
  match r with
  | Eps | Bos | Eos | Opt _ => 0
  | One _ => 1
  | Seq r1 r2 => min_len r1 + min_len r2
  | Alt r1 r2 => Nat.min (min_len r1) (min_len r2)
  | Rep n _ => n
  | Grp _ r => min_len r
  end.

(** The patterns of the program. *)
Definition patterns : list regex :=
  [re_title_5; re_title_4; re_title_3; re_title_2; re_title_1;
   re_title_2_long; re_title_1_long; re_image].

(** ** Images: the terms of their properties *)

(** What a match of [re_image] at the head of [s] consists of: the
    text between [![] and the next []], not empty and followed by [(];
    the text up to the next [)], not empty; and the rest of the text
    behind that [)]. *)
Definition image_at (s : str) : option (str * str * str) :=
  match strip_prefix (txt "![") s with
  | Some s1 =>
      let n := run_len (NotCh "]") s1 in
      match n, strip_prefix (txt "](") (drop n s1) with
      | S _, Some s2 =>
          let k := run_len (NotCh ")") s2 in
          match k, drop k s2 with
          | S _, c :: rest => Some (take n s1, take k s2, rest)
          | _, _ => None
          end
      | _, _ => None
      end
  | None => None
  end.

Definition bang : ascii := "!".

(** The URL that is requested for [image_url] (lines 351 to 353); none
    for a URL that is neither absolute nor rooted. *)
Definition resolve (image_url : str) : option str :=
  if negb (startswith (txt "http://") image_url)
     && negb (startswith (txt "https://") image_url)
  then
    if startswith (txt "/") image_url
    then Some (txt "https://zestedesavoir.com" ++ image_url)
    else None
  else Some image_url.

(** The line printed before the request (line 360). *)
Definition announce (m : rmatch) (url : str) : bool * str :=
  (false, txt "Downloading and replacing image " ++ mgroup m 1
          ++ txt " from " ++ url ++ txt "…").

Definition skipping : bool * str :=
  (true, txt "Unable to download image, skipping").

(** The world after the request for [url]: the line printed, the URL
    requested; dictionary and files as before. *)
Definition after_request (w : world) (m : rmatch) (url : str) : world :=
  World (downloaded_images w) (files w)
    (console w ++ [announce m url]) (requested w ++ [url]).

(** The same with the warning of line 364. *)
Definition after_refusal (w : world) (m : rmatch) (url : str) : world :=
  World (downloaded_images w) (files w)
    ((console w ++ [announce m url]) ++ [skipping]) (requested w ++ [url]).

(** The name given to a new image (lines 369 and 375). *)
Definition new_filename (E : env) (uids : list str) (m : rmatch) (url : str)
    : str :=
  first_free uids (slugify_text E (mgroup m 1)) 0 (length uids)
  ++ "." :: last_field "." url.



(** ** One run: the calls for its fragments, in order *)

(** The texts [zds_to_grav] passes to
    [download_and_replace_markdown_images] (lines 200 to 222). *)
Definition fragments (a : archive) : list str :=
  match introduction a with Some text => [text] | None => [] end
  ++ match children a with
     | Some cs =>
         map (fun c => shift_markdown_headers (c_text c)) (filter is_extract cs)
     | None => []
     end
  ++ match conclusion a with Some text => [text] | None => [] end.

(** The calls for a list of fragments, each result kept piece by
    piece. *)
Fixpoint localize_fragments (E : env) (frs : list str) (to : str)
    : M world (list (list str)) :=
  match frs with
  | [] => ret []
  | fr :: frs' =>
      outs <- localize_pieces E fr to ;;
      rest <- localize_fragments E frs' to ;;
      ret (outs :: rest)
  end.


(** How many of the files written hold bytes of the hash [h]. *)
Definition count_hash (E : env) (h : str) (fs : list written) : nat :=
  length (filter (fun x => sha256_hexdigest E (w_bytes x) = h) fs).

(** The dictionary knows exactly the hashes of the files written, and
    each of them was written once. *)
Definition registry_counts (E : env) (w : world) : Prop :=
  forall h,
    count_hash E h (files w)
    = match downloaded_images w !! h with Some _ => 1 | None => 0 end.

(** Entries of the dictionary stay. *)
Definition grows (w w' : world) : Prop :=
  forall h f,
    downloaded_images w !! h = Some f -> downloaded_images w' !! h = Some f.

(** What the text written for a reference is, when its image was
    fetched: the markup with the name the dictionary of [w'] has for the
    bytes. *)
Definition served (E : env) (w' : world) (m : rmatch) (out : str) : Prop :=
  forall url image,
    resolve (mgroup m 2) = Some url ->
    requests_get E url = Reply true image ->
    exists f,
      downloaded_images w' !! sha256_hexdigest E image = Some f
      /\ out = image_markup (mgroup m 1) f.



(** How a computation ends: the exception it raises, if any, and the
    world it leaves. *)
Definition effect {A : Type} (x : result A * world) : option exn * world :=
  match x with
  | (Ok _, w) => (None, w)
  | (Raise e, w) => (Some e, w)
  end.

(** The effect of a computation followed by another one. *)
Definition and_then (x : option exn * world)
    (k : world -> option exn * world) : option exn * world :=
  match x with
  | (None, w) => k w
  | (Some e, w) => (Some e, w)
  end.

(** ** Sample environments *)

(** A web that answers every request with the text of the URL as the
    bytes: different URLs, different images. *)
Definition echo_web (url : str) : outcome := Reply true url.


(** A web that refuses every request, and one that does not answer. *)
Definition refusing_web (url : str) : outcome := Reply false (txt "Not Found").
Definition silent_web (url : str) : outcome := NoReply.

(** A stand-in for [hexdigest] that never collides: the bytes
    themselves. *)
Definition sample_hexdigest (bytes : str) : str := bytes.

(** A stand-in for the text transformation of [Slugify(to_lower=True)]
    on ASCII words: letters in lower case, digits kept, a dash for each
    other character. *)
Definition sample_slugify_text (text : str) : str :=
  map (fun c =>
         let n := nat_of_ascii c in
         if Nat.leb 65 n && Nat.leb n 90 then ascii_of_nat (n + 32)
         else if (Nat.leb 97 n && Nat.leb n 122) || (Nat.leb 48 n && Nat.leb n 57)
              then c else dash) text.

Definition sample_env (web : str -> outcome) : env :=
  Env web sample_hexdigest sample_slugify_text.

(** An archive with two different images under one alt text, one in
    the introduction and one in the conclusion. *)
Definition two_figures : archive :=
  Archive (Some (txt "![Fig](http://a.org/1.png)")) None
          (Some (txt "![Fig](http://b.org/2.png)")).

(** * Part II, continued: the terms of further properties *)

(** ** Headers *)

(** A text no pass finds a header in. *)
Fixpoint calm (ls : list str) : bool :=
  match ls with
  | [] => true
  | l :: rest =>
      not_atx_header l
      && match l, rest with
         | _ :: _, u :: rest' =>
             negb (bool_decide (is_Some (underline dash u (more rest'))))
             && negb (bool_decide (is_Some (underline equal u (more rest'))))
         | _, _ => true
         end
      && calm rest
  end.

(** ** Image references *)

(** How many of the pieces are matches. *)
Fixpoint hits (ps : list piece) : nat :=
  match ps with
  | [] => 0
  | Hit _ :: ps' => S (hits ps')
  | Text _ :: ps' => hits ps'
  end.

Definition absolute (url : str) : bool :=
  startswith (txt "http://") url || startswith (txt "https://") url.


(** No image reference starts anywhere in the text. *)
Fixpoint no_reference (s : str) : bool :=
  match s with
  | [] => true
  | _ :: s' =>
      match image_at s with
      | Some _ => false
      | None => no_reference s'
      end
  end.

(** A stretch of text without [!], then a reference with alt text [a]
    and URL [u]. *)
Definition reference_ok (i : str * str * str) : bool :=
  let '(pre, a, u) := i in
  bool_decide (bang ∉ pre)
  && bool_decide (a <> []) && bool_decide ("]" ∉ a)
  && bool_decide (u <> []) && bool_decide (")" ∉ u).

Definition reference_text (i : str * str * str) : str :=
  let '(pre, a, u) := i in pre ++ image_markup a u.

Definition reference_pieces (i : str * str * str) : list piece :=
  let '(pre, a, u) := i in
  map Text pre ++ [Hit (Match (image_markup a u) [(2, u); (1, a)])].

(** Eight references to different images. *)
Definition eight_references : list (str * str * str) :=
  map (fun n => (txt " ", txt "Fig", txt "http://a.org/" ++ [n] ++ txt ".png"))
    ["1"; "2"; "3"; "4"; "5"; "6"; "7"; "8"]%char.

(** ** The content of a file *)

(** Does the text start, or end, with white space. *)
Definition starts_with_space (s : str) : bool :=
  match behind_one_of whitespace s with Some _ => true | None => false end.

Definition ends_with_space (s : str) : bool :=
  match behind_one_of (map (@rev ascii) whitespace) (rev s) with
  | Some _ => true
  | None => false
  end.

(** A text with the line ends of another convention: a carriage
    return in front of every line feed. *)
Fixpoint crlf (s : str) : str :=
  match s with
  | [] => []
  | c :: s' => if Ascii.eqb c LF then CR :: LF :: crlf s' else c :: crlf s'
  end.

(** ** A run on an archive *)

(** The manifest passes lines 169 to 185. *)
Definition supported (m : manifest) : bool :=
  negb (Z.ltb (m_version m) 2)
  && bool_decide (m_type m ∈ [txt "ARTICLE"; txt "OPINION"]).

(** The slug lines 187 to 192 settle on, if there is one. *)
Definition slug_of (slug : option str) (m : manifest) : option str :=
  match slug with
  | Some (c :: s) => Some (c :: s)
  | _ => m_slug m
  end.



(** * Part III: properties *)

(** ** The matcher *)

Lemma consumed_app (a b : str) : consumed (a ++ b) b = a.
Proof.
  unfold consumed. rewrite length_app.
  replace (length a + length b - length b) with (length a) by lia.
  by rewrite take_app_length.
Qed.

Lemma consumed_nil (s : str) : consumed s s = [].
Proof. apply (consumed_app [] s). Qed.

Lemma consumed_cons (c : ascii) (a b : str) : consumed (c :: a ++ b) b = c :: a.
Proof. apply (consumed_app (c :: a) b). Qed.

Lemma strip_prefix_app (w s : str) : strip_prefix w (w ++ s) = Some s.
Proof. induction w as [|c w IH]; simpl; [done|]. by rewrite Ascii.eqb_refl. Qed.

Lemma strip_prefix_Some (w s s' : str) :
  strip_prefix w s = Some s' -> s = w ++ s'.
Proof.
  revert s. induction w as [|c w IH]; intros s; simpl.
  - by intros [= ->].
  - destruct s as [|d s]; [done|].
    destruct (Ascii.eqb_spec d c) as [->|]; [|done].
    intros H. by rewrite (IH _ H).
Qed.

Lemma run_lit (w : str) (bos : bool) (s : str) (g : groups) (κ : cont) :
  w <> [] ->
  run (lit w) bos s g κ =
  match strip_prefix w s with
  | Some s' => κ false s' g
  | None => None
  end.
Proof.
  revert bos s. induction w as [|c w IH]; intros bos s Hw; [done|].
  simpl. destruct s as [|d s]; [done|].
  destruct (Ascii.eqb d c); [|done].
  destruct w as [|c' w]; [done|]. by apply IH.
Qed.

Lemma at_start_false (j : nat) : at_start false j = false.
Proof. by destruct j. Qed.

(** A greedy repetition stops at the longest run when the rest of the
    pattern matches there. *)
Lemma rep_longest (k : charclass) (n : nat) (bos : bool) (s : str)
    (g : groups) (κ : cont) (r : str * groups) :
  n <= run_len k s ->
  κ (at_start bos (run_len k s)) (drop (run_len k s) s) g = Some r ->
  rep k n bos s g κ = Some r.
Proof.
  revert n bos. induction s as [|c s IH]; intros n bos Hn Hk; simpl in *.
  - assert (n = 0) as -> by lia. done.
  - destruct (accepts k c).
    + simpl in Hk. rewrite (IH (pred n) false); [done|lia|].
      by rewrite at_start_false.
    + assert (n = 0) as -> by lia. done.
Qed.

(** It fails when the rest of the pattern fails at every admissible
    stop. *)
Lemma rep_none (k : charclass) (n : nat) (bos : bool) (s : str)
    (g : groups) (κ : cont) :
  (forall j, n <= j <= run_len k s -> κ (at_start bos j) (drop j s) g = None) ->
  rep k n bos s g κ = None.
Proof.
  revert n bos. induction s as [|c s IH]; intros n bos Hk; simpl in *.
  - destruct n; [|done]. apply (Hk 0). lia.
  - destruct (accepts k c).
    + rewrite (IH (pred n) false).
      * destruct n; [|done]. apply (Hk 0). lia.
      * intros j Hj. rewrite at_start_false. apply (Hk (S j)). lia.
    + destruct n; [|done]. apply (Hk 0). lia.
Qed.

(** Passing over the rest of a match. *)
Lemma scan_skip (re : regex) (limit : option nat) (a b : str) :
  scan re limit false (length a) (a ++ b) = scan re limit false 0 b.
Proof. induction a as [|c a IH]; [done|]. simpl. apply IH. Qed.

(** ** No match is empty *)

Lemma rep_min_len (k : charclass) (s : str) :
  forall n bos g κ x, rep k n bos s g κ = Some x ->
  exists b' s1 g1, κ b' s1 g1 = Some x /\ length s1 + n <= length s.
Proof.
  induction s as [|c s IH]; intros n bos g κ x; cbn [rep].
  - destruct n; [|discriminate]. intros H. exists bos, [], g. split; [exact H|cbn; lia].
  - assert (Hstop : match n with 0 => κ bos (c :: s) g | S _ => None end = Some x ->
      exists b' s1 g1, κ b' s1 g1 = Some x /\ length s1 + n <= length (c :: s)).
    { destruct n; [|discriminate]. intros H. exists bos, (c :: s), g. split; [exact H|lia]. }
    destruct (accepts k c); [|exact Hstop].
    destruct (rep k (pred n) false s g κ) as [y|] eqn:Hr; [|exact Hstop].
    intros [= <-]. apply IH in Hr as (b' & s1 & g1 & Hk & Hl).
    exists b', s1, g1. split; [exact Hk|cbn [length]; lia].
Qed.

Lemma run_min_len (r : regex) :
  forall bos s g κ x, run r bos s g κ = Some x ->
  exists b' s1 g1, κ b' s1 g1 = Some x /\ length s1 + min_len r <= length s.
Proof.
  induction r as [|k| | |r1 IH1 r2 IH2|r1 IH1 r2 IH2|k|n k|i r IH];
    intros bos s g κ x; cbn [run min_len].
  - intros H. exists bos, s, g. split; [exact H|lia].
  - destruct s as [|c s]; [discriminate|]. destruct (accepts k c); [|discriminate].
    intros H. exists false, s, g. split; [exact H|cbn [length]; lia].
  - destruct bos; [|discriminate]. intros H. exists true, s, g. split; [exact H|lia].
  - destruct s; [|discriminate]. intros H. exists bos, [], g. split; [exact H|lia].
  - intros H. apply IH1 in H as (b1 & s1 & g1 & H & Hl1).
    apply IH2 in H as (b2 & s2 & g2 & H & Hl2).
    exists b2, s2, g2. split; [exact H|lia].
  - destruct (run r1 bos s g κ) as [y|] eqn:H1.
    + intros [= <-]. apply IH1 in H1 as (b1 & s1 & g1 & H & Hl).
      exists b1, s1, g1. split; [exact H|lia].
    + intros H. apply IH2 in H as (b1 & s1 & g1 & H & Hl).
      exists b1, s1, g1. split; [exact H|lia].
  - assert (Hstop : κ bos s g = Some x ->
      exists b' s1 g1, κ b' s1 g1 = Some x /\ length s1 + 0 <= length s).
    { intros H. exists bos, s, g. split; [exact H|lia]. }
    destruct s as [|c s]; [exact Hstop|].
    destruct (accepts k c); [|exact Hstop].
    destruct (κ false s g) as [y|] eqn:Hk; [|exact Hstop].
    intros [= <-]. exists false, s, g. split; [exact Hk|cbn [length]; lia].
  - apply rep_min_len.
  - intros H. apply IH in H as (b1 & s1 & g1 & H & Hl).
    exists b1, s1, ((i, consumed s s1) :: g1). split; [exact H|exact Hl].
Qed.

Lemma try_match_min_len (re : regex) (bos : bool) (s : str) (m : rmatch) :
  try_match re bos s = Some m -> min_len re <= length (whole m).
Proof.
  unfold try_match. destruct (run re bos s [] accept) as [[s' g]|] eqn:H; [|discriminate].
  intros [= <-]. apply run_min_len in H as (b' & s1 & g1 & [= -> ->] & Hl).
  cbn [whole]. unfold consumed. rewrite length_take. lia.
Qed.

(** X6. No pattern of the program matches the empty text: a
    substitution never puts a replacement between two characters. *)
Lemma match_not_empty (re : regex) (bos : bool) (s : str) (m : rmatch) :
  re ∈ patterns -> try_match re bos s = Some m -> whole m <> [].
Proof.
  intros Hin H. apply try_match_min_len in H.
  assert (1 <= min_len re).
  { unfold patterns in Hin.
    repeat (apply elem_of_cons in Hin as [->|Hin]; [vm_compute; lia|]).
    now apply elem_of_nil in Hin. }
  destruct (whole m); [cbn in H; lia|discriminate].
Qed.

(** ** Texts as lines *)

Lemma join_cons (l : str) (ls : list str) : join (l :: ls) = l ++ sep ls ++ join ls.
Proof. destruct ls; simpl; [by rewrite app_nil_r|done]. Qed.

Lemma join_app (a b : list str) :
  a <> [] -> join (a ++ b) = join a ++ sep b ++ join b.
Proof.
  induction a as [|l a IH]; [done|]. intros _.
  destruct a as [|l' a].
  - simpl app. rewrite join_cons. done.
  - change ((l :: l' :: a) ++ b) with (l :: ((l' :: a) ++ b)).
    rewrite (join_cons l), IH, (join_cons l (l' :: a)) by done.
    cbn [sep]. by rewrite <- !app_assoc.
Qed.

Lemma join_take_drop (n : nat) (ls : list str) :
  1 <= n -> join ls = join (take n ls) ++ sep (drop n ls) ++ join (drop n ls).
Proof.
  intros Hn. destruct ls as [|l ls]; [by destruct n|].
  rewrite <- (take_drop n (l :: ls)) at 1. apply join_app.
  destruct n; [lia|done].
Qed.

Lemma split_on_nonempty (c : ascii) (s : str) : split_on c s <> [].
Proof.
  induction s as [|d s IH]; simpl; [done|].
  destruct (Ascii.eqb d c); [done|]. by destruct (split_on c s).
Qed.

Lemma lines_nonempty (s : str) : lines s <> [].
Proof. apply split_on_nonempty. Qed.

Lemma join_lines (s : str) : join (lines s) = s.
Proof.
  unfold lines.
  induction s as [|c s IH]; [done|]. cbn [split_on].
  pose proof (split_on_nonempty LF s) as Hne.
  destruct (Ascii.eqb_spec c LF) as [->|Hc].
  - rewrite join_cons. destruct (split_on LF s); [done|]. cbn [sep]. by rewrite IH.
  - destruct (split_on LF s) as [|l ls]; [done|].
    rewrite join_cons in *. by rewrite <- IH.
Qed.

Lemma lf_free_nil : lf_free [].
Proof. unfold lf_free. apply not_elem_of_nil. Qed.

Lemma lf_free_cons (c : ascii) (l : str) :
  lf_free (c :: l) <-> c <> LF /\ lf_free l.
Proof.
  unfold lf_free. rewrite not_elem_of_cons. split; intros [? ?]; split; auto.
Qed.

Lemma lf_free_app (a b : str) : lf_free (a ++ b) <-> lf_free a /\ lf_free b.
Proof. unfold lf_free. rewrite not_elem_of_app. tauto. Qed.

Lemma lines_lf_free (s : str) : Forall lf_free (lines s).
Proof.
  unfold lines. induction s as [|c s IH]; cbn [split_on].
  - constructor; [apply lf_free_nil|done].
  - destruct (Ascii.eqb_spec c LF) as [->|Hc].
    + constructor; [apply lf_free_nil|done].
    + destruct (split_on LF s) as [|l ls].
      * constructor; [|done]. apply lf_free_cons. split; [done|apply lf_free_nil].
      * inversion IH; subst. constructor; [|done]. by apply lf_free_cons.
Qed.

(** ** One substitution pass, line by line

    Every header pattern is [(\A|\r?\n)] followed by a body that
    describes whole lines and ends with [(\r?\n|\Z)]. *)

Lemma run_Seq r1 r2 bos s g κ :
  run (Seq r1 r2) bos s g κ = run r1 bos s g (fun b' s' g' => run r2 b' s' g' κ).
Proof. done. Qed.

Lemma run_Alt r1 r2 bos s g κ :
  run (Alt r1 r2) bos s g κ =
  match run r1 bos s g κ with Some x => Some x | None => run r2 bos s g κ end.
Proof. done. Qed.

Lemma run_Grp i r bos s g κ :
  run (Grp i r) bos s g κ =
  run r bos s g (fun b' s' g' => κ b' s' ((i, consumed s s') :: g')).
Proof. done. Qed.

Lemma run_Rep n k bos s g κ : run (Rep n k) bos s g κ = rep k n bos s g κ.
Proof. done. Qed.

(** [\r?\n] *)
Lemma run_newline (bos : bool) (s : str) (g : groups) (κ : cont) :
  run (Opt (Ch CR) +> One (Ch LF)) bos s g κ =
  match s with
  | c :: s1 =>
      if Ascii.eqb c CR then
        match s1 with
        | d :: s2 => if Ascii.eqb d LF then κ false s2 g else None
        | [] => None
        end
      else if Ascii.eqb c LF then κ false s1 g else None
  | [] => None
  end.
Proof.
  destruct s as [|c s1]; [done|]. cbn [run accepts].
  destruct (Ascii.eqb_spec c CR) as [->|Hc]; [|done].
  destruct s1 as [|d s2]; [done|].
  destruct (Ascii.eqb_spec d LF) as [->|Hd]; [|done].
  by destruct (κ false s2 g).
Qed.

Lemma run_line_start (body : regex) (bos : bool) (s : str) :
  run (Grp 1 line_start +> body) bos s [] accept =
  match (if bos then run body true s [(1, [])] accept else None) with
  | Some x => Some x
  | None =>
      match s with
      | c :: s1 =>
          if Ascii.eqb c CR then
            match s1 with
            | d :: s2 =>
                if Ascii.eqb d LF
                then run body false s2 [(1, [CR; LF])] accept
                else None
            | [] => None
            end
          else if Ascii.eqb c LF then run body false s1 [(1, [LF])] accept
          else None
      | [] => None
      end
  end.
Proof.
  unfold line_start. rewrite run_Seq, run_Grp, run_Alt, run_newline.
  cbn [run]. rewrite consumed_nil.
  replace (if bos then run body bos s [(1, [])] accept else None)
    with (if bos then run body true s [(1, [])] accept else None)
    by (by destruct bos).
  destruct (if bos then run body true s [(1, [])] accept else None); [done|].
  destruct s as [|c s1]; [done|].
  destruct (Ascii.eqb_spec c CR) as [->|Hc].
  - destruct s1 as [|d s2]; [done|].
    destruct (Ascii.eqb_spec d LF) as [->|Hd]; [|done].
    change (consumed (CR :: LF :: s2) s2) with (consumed ([CR; LF] ++ s2) s2).
    by rewrite consumed_app.
  - destruct (Ascii.eqb_spec c LF) as [->|Hc']; [|done].
    change (consumed (LF :: s1) s1) with (consumed ([LF] ++ s1) s1).
    by rewrite consumed_app.
Qed.

Lemma scan_zero (re : regex) (limit : option nat) (bos : bool) (s : str) :
  scan re limit bos 0 s =
  match (if exhausted limit then None else try_match re bos s) with
  | Some m =>
      Hit m ::
      match s with
      | [] => []
      | c :: s' =>
          match length (whole m) with
          | 0 => Text c :: scan re (spend limit) false 0 s'
          | S k => scan re (spend limit) false k s'
          end
      end
  | None =>
      match s with
      | [] => []
      | c :: s' => Text c :: scan re limit false 0 s'
      end
  end.
Proof. by destruct s. Qed.

(** A match of at least one character: the scan goes on behind it. *)
Lemma scan_hit (re : regex) (limit : option nat) (bos : bool) (s a r : str)
    (m : rmatch) :
  exhausted limit = false ->
  try_match re bos s = Some m ->
  whole m = a -> a <> [] -> s = a ++ r ->
  scan re limit bos 0 s = Hit m :: scan re (spend limit) false 0 r.
Proof.
  intros Hl Hm Hw Ha ->. rewrite scan_zero, Hl, Hm, Hw.
  destruct a as [|c a]; [done|]. cbn [app length].
  by rewrite scan_skip.
Qed.

Lemma scan_miss (re : regex) (limit : option nat) (bos : bool) (c : ascii)
    (s : str) :
  try_match re bos (c :: s) = None ->
  scan re limit bos 0 (c :: s) = Text c :: scan re limit false 0 s.
Proof. intros Hm. rewrite scan_zero, Hm. by destruct (exhausted limit). Qed.

Lemma scan_end (re : regex) (limit : option nat) (bos : bool) :
  try_match re bos [] = None -> scan re limit bos 0 [] = [].
Proof. intros Hm. rewrite scan_zero, Hm. by destruct (exhausted limit). Qed.

Section LinePass.
Variable body : regex.
Variable repl : rmatch -> str.

(** What the body does at the start of a line, given that line and
    the ones after it: how many lines it takes, and the lines the
    replacement puts in their place. *)
Variable lm : list str -> option (nat * list str).

Hypothesis lm_nil : lm [] = None.
Hypothesis lm_blank : forall ls, lm ([] :: ls) = None.
Hypothesis lm_count : forall ls n out,
  lm ls = Some (n, out) -> 1 <= n <= length ls /\ out <> [].
Hypothesis body_hit : forall b g1 ls n out,
  Forall lf_free ls -> lm ls = Some (n, out) ->
  exists G,
    run body b (join ls) [(1, g1)] accept = Some (join (drop n ls), G)
    /\ forall w, repl (Match w G) = g1 ++ join out ++ sep (drop n ls).
Hypothesis body_miss : forall b g1 ls,
  Forall lf_free ls -> lm ls = None ->
  run body b (join ls) [(1, g1)] accept = None.

Let pat : regex := (Grp 1 line_start +> body)%re.

Lemma walk_skip (k : nat) (ls : list str) :
  walk lm false k ls = walk lm false 0 (drop k ls).
Proof.
  revert ls. induction k as [|k IH]; intros ls; [done|].
  destruct ls as [|l ls]; [done|]. apply IH.
Qed.

Lemma walk_nonempty (avail : bool) (ls : list str) :
  ls <> [] -> walk lm avail 0 ls <> [].
Proof.
  destruct ls as [|l ls]; [done|]. intros _. cbn [walk].
  destruct (if avail then lm (l :: ls) else None) as [[n out]|] eqn:E; [|done].
  destruct avail; [|done]. apply lm_count in E as [_ Hout].
  by destruct out.
Qed.

Lemma sep_walk (avail : bool) (ls : list str) :
  sep (walk lm avail 0 ls) = sep ls.
Proof.
  destruct ls as [|l ls]; [done|].
  pose proof (walk_nonempty avail (l :: ls)) as H.
  destruct (walk lm avail 0 (l :: ls)); [by exfalso; apply H|done].
Qed.

Let rscan (bos : bool) (s : str) : str :=
  concat (map (render repl) (scan pat None bos 0 s)).

Lemma run_pat_lf (s : str) :
  run pat false (LF :: s) [] accept = run body false s [(1, [LF])] accept.
Proof. unfold pat. by rewrite run_line_start. Qed.

Lemma run_pat_crlf (s : str) :
  run pat false (CR :: LF :: s) [] accept
  = run body false s [(1, [CR; LF])] accept.
Proof. unfold pat. by rewrite run_line_start. Qed.

Lemma try_match_nil (bos : bool) : try_match pat bos [] = None.
Proof.
  unfold try_match, pat. rewrite run_line_start.
  destruct bos; [|done].
  pose proof (body_miss true [] [] (List.Forall_nil _) lm_nil) as H.
  cbn [join] in H. by rewrite H.
Qed.

Lemma rscan_nil (bos : bool) : rscan bos [] = [].
Proof. unfold rscan. by rewrite scan_end by apply try_match_nil. Qed.

(** Inside a line nothing matches, except that a carriage return
    right before the line feed may open the match. *)
Lemma rscan_line (l T R : str) :
  lf_free l ->
  (T = [] \/ exists T', T = LF :: T') ->
  rscan false T = R ->
  rscan false (CR :: T) = CR :: R ->
  rscan false (l ++ T) = l ++ R.
Proof.
  intros Hl HT HR HCR. induction l as [|c l IH]; [done|].
  assert (c <> LF) as Hc by (intros ->; apply Hl; by left).
  assert (lf_free l) as Hl' by (intros H; apply Hl; by right).
  destruct l as [|d l].
  - destruct (Ascii.eqb_spec c CR) as [->|Hcr]; [done|].
    cbn [app]. unfold rscan. rewrite scan_miss.
    + cbn [map render concat app]. by rewrite <- HR.
    + unfold try_match, pat. rewrite run_line_start.
      destruct (Ascii.eqb_spec c CR); [done|].
      by destruct (Ascii.eqb_spec c LF).
  - assert (d <> LF) as Hd by (intros ->; apply Hl'; by left).
    cbn [app]. unfold rscan. rewrite scan_miss.
    + cbn [map render concat app]. f_equal. by apply IH.
    + unfold try_match, pat. rewrite run_line_start. cbn [app].
      destruct (Ascii.eqb_spec c CR).
      * by destruct (Ascii.eqb_spec d LF).
      * by destruct (Ascii.eqb_spec c LF).
Qed.

Lemma join_take_nonempty (ls : list str) (n : nat) (out : list str) :
  lm ls = Some (n, out) -> join (take n ls) <> [].
Proof.
  intros E. destruct (lm_count _ _ _ E) as [[Hn _] _].
  destruct ls as [|l ls]; [by rewrite lm_nil in E|].
  destruct l as [|c l]; [by rewrite lm_blank in E|].
  destruct n; [lia|]. cbn [take]. by rewrite join_cons.
Qed.

(** A match at the start of a line. *)
Lemma rscan_hit (bos b : bool) (g1 : str) (ls : list str) (n : nat)
    (out : list str) :
  Forall lf_free ls -> lm ls = Some (n, out) ->
  (forall x, run body b (join ls) [(1, g1)] accept = Some x ->
             run pat bos (g1 ++ join ls) [] accept = Some x) ->
  rscan bos (g1 ++ join ls) =
  g1 ++ join out ++ sep (drop n ls) ++ rscan false (join (drop n ls)).
Proof.
  intros Hls E Hrun.
  destruct (body_hit b g1 ls n out Hls E) as (G & HG & Hrepl).
  apply Hrun in HG.
  destruct (lm_count _ _ _ E) as [[Hn _] _].
  pose proof (join_take_nonempty _ _ _ E) as Hne.
  unfold rscan.
  rewrite (scan_hit pat None bos (g1 ++ join ls)
             (g1 ++ join (take n ls) ++ sep (drop n ls)) (join (drop n ls))
             (Match (g1 ++ join (take n ls) ++ sep (drop n ls)) G)).
  - cbn [map render concat spend]. rewrite Hrepl.
    by rewrite <- !app_assoc.
  - done.
  - unfold try_match. rewrite HG. f_equal. f_equal.
    rewrite (join_take_drop n ls) at 1 by done.
    rewrite !app_assoc. by rewrite consumed_app.
  - done.
  - intros H. apply app_eq_nil in H as [_ H].
    apply app_eq_nil in H as [H _]. done.
  - rewrite (join_take_drop n ls) at 1 by done. by rewrite <- !app_assoc.
Qed.

Lemma walk_hit (l : str) (ls : list str) (n : nat) (out : list str) :
  lm (l :: ls) = Some (n, out) ->
  join (walk lm true 0 (l :: ls)) =
  join out ++ sep (drop n (l :: ls))
  ++ join (walk lm false 0 (drop n (l :: ls))).
Proof.
  intros E. destruct (lm_count _ _ _ E) as [[Hn _] Hout].
  cbn [walk]. rewrite E, walk_skip.
  destruct n as [|n]; [lia|]. cbn [pred drop].
  by rewrite join_app, sep_walk.
Qed.

Lemma walk_miss (avail : bool) (l : str) (ls : list str) :
  (if avail then lm (l :: ls) else None) = None ->
  join (walk lm avail 0 (l :: ls)) = l ++ sep ls ++ join (walk lm true 0 ls).
Proof. intros E. cbn [walk]. by rewrite E, join_cons, sep_walk. Qed.

Lemma rscan_lines (k : nat) (ls : list str) :
  length ls <= k -> Forall lf_free ls ->
  rscan false (join ls) = join (walk lm false 0 ls)
  /\ (ls <> [] ->
      rscan false (LF :: join ls) = LF :: join (walk lm true 0 ls))
  /\ (ls <> [] ->
      rscan false (CR :: LF :: join ls) = CR :: LF :: join (walk lm true 0 ls)).
Proof.
  revert ls. induction k as [|k IH]; intros ls Hk Hls.
  { destruct ls; [|simpl in Hk; lia]. split; [apply rscan_nil|done]. }
  destruct ls as [|l ls]; [split; [apply rscan_nil|done]|].
  inversion Hls as [|? ? Hl Hls']; subst.
  assert (length ls <= k) as Hk' by (simpl in Hk; lia).
  destruct (IH ls Hk' Hls') as (IHC & IHB & IHB').
  assert (rscan false (join (l :: ls)) = join (walk lm false 0 (l :: ls)))
    as HC.
  { rewrite (walk_miss false) by done. rewrite join_cons.
    destruct ls as [|l' ls].
    - cbn [sep join walk app]. rewrite !app_nil_r.
      rewrite <- (app_nil_r l) at 1.
      rewrite (rscan_line l [] []); [by rewrite app_nil_r|done|by left|apply rscan_nil|].
      unfold rscan. rewrite scan_miss.
      + cbn [map render concat app]. f_equal; apply rscan_nil.
      + unfold try_match, pat. by rewrite run_line_start.
    - cbn [sep]. cbn [app].
      apply rscan_line; [done|right; eauto|by apply IHB|by apply IHB']. }
  assert (forall g1 bos,
    (forall x, run body false (join (l :: ls)) [(1, g1)] accept = Some x ->
               run pat bos (g1 ++ join (l :: ls)) [] accept = Some x) ->
    (lm (l :: ls) = None ->
     rscan bos (g1 ++ join (l :: ls)) = g1 ++ rscan false (join (l :: ls))) ->
    rscan bos (g1 ++ join (l :: ls)) = g1 ++ join (walk lm true 0 (l :: ls)))
    as Hstart.
  { intros g1 bos Hrun Hmiss.
    destruct (lm (l :: ls)) as [[n out]|] eqn:E.
    - rewrite (rscan_hit bos false g1 (l :: ls) n out); [|done..].
      rewrite (walk_hit _ _ _ _ E).
      destruct (lm_count _ _ _ E) as [[Hn Hn'] _].
      destruct (IH (drop n (l :: ls))) as (HC' & _).
      { rewrite length_drop. simpl in *. lia. }
      { by apply Forall_drop. }
      by rewrite HC'.
    - rewrite Hmiss, HC by done.
      by rewrite (walk_miss false), (walk_miss true) by done. }
  split; [done|]. split; intros _.
  - apply (Hstart [LF] false).
    + intros x Hx. cbn [app]. by rewrite run_pat_lf.
    + intros E. unfold rscan. cbn [app]. rewrite scan_miss; [done|].
      unfold try_match. by rewrite run_pat_lf, body_miss.
  - apply (Hstart [CR; LF] false).
    + intros x Hx. cbn [app]. by rewrite run_pat_crlf.
    + intros E. unfold rscan. cbn [app]. rewrite scan_miss.
      * cbn [map render concat app]. f_equal.
        rewrite scan_miss; [done|].
        unfold try_match. by rewrite run_pat_lf, body_miss.
      * unfold try_match. by rewrite run_pat_crlf, body_miss.
Qed.

(** The whole pass: [pattern.sub(repl, text)] on the lines of the
    text. *)
Theorem sub_lines (ls : list str) :
  Forall lf_free ls ->
  sub pat repl (join ls) 0 = join (walk lm true 0 ls).
Proof.
  intros Hls. change (sub pat repl (join ls) 0) with (rscan true (join ls)).
  destruct ls as [|l ls]; [apply rscan_nil|].
  destruct (lm (l :: ls)) as [[n out]|] eqn:E.
  - change (join (l :: ls)) with ([] ++ join (l :: ls)) at 1.
    rewrite (rscan_hit true true [] (l :: ls) n out Hls E).
    + rewrite (walk_hit _ _ _ _ E). cbn [app].
      destruct (rscan_lines (length (drop n (l :: ls))) (drop n (l :: ls)))
        as (HC & _); [done|by apply Forall_drop|].
      by rewrite HC.
    + intros x Hx. unfold pat. rewrite run_line_start. cbn [app].
      by rewrite Hx.
  - destruct (rscan_lines (length (l :: ls)) (l :: ls)) as (HC & _);
      [done..|].
    rewrite (walk_miss true), <- (walk_miss false) by done.
    rewrite <- HC. unfold rscan. f_equal. f_equal.
    rewrite !(scan_zero pat None).
    replace (try_match pat true (join (l :: ls)))
      with (try_match pat false (join (l :: ls))); [done|].
    unfold try_match, pat. rewrite !run_line_start.
    by rewrite body_miss.
Qed.

End LinePass.

(** ** The end of a line, and runs inside a line *)

Lemma line_tail_join (ls : list str) : line_tail (sep ls ++ join ls).
Proof. destruct ls; [by left|right; eauto]. Qed.

(** [(\r?\n|\Z)] as group [i], at the end of the pattern. *)
Lemma run_line_end (i : nat) (b : bool) (s : str) (g : groups) :
  run (Grp i line_end) b s g accept =
  match s with
  | [] => Some ([], (i, []) :: g)
  | c :: s1 =>
      if Ascii.eqb c CR then
        match s1 with
        | d :: s2 =>
            if Ascii.eqb d LF then Some (s2, (i, [CR; LF]) :: g) else None
        | [] => None
        end
      else if Ascii.eqb c LF then Some (s1, (i, [LF]) :: g) else None
  end.
Proof.
  unfold line_end. rewrite run_Grp, run_Alt, run_newline. cbn [run].
  destruct s as [|c s1]; [done|].
  destruct (Ascii.eqb_spec c CR) as [->|Hc].
  - destruct s1 as [|d s2]; [done|].
    destruct (Ascii.eqb_spec d LF) as [->|Hd]; [|done].
    unfold accept.
    change (consumed (CR :: LF :: s2) s2) with (consumed ([CR; LF] ++ s2) s2).
    by rewrite consumed_app.
  - destruct (Ascii.eqb_spec c LF) as [->|Hc']; [|done].
    unfold accept.
    change (consumed (LF :: s1) s1) with (consumed ([LF] ++ s1) s1).
    by rewrite consumed_app.
Qed.

Lemma run_line_end_tail (i : nat) (b : bool) (ls : list str) (g : groups) :
  run (Grp i line_end) b (sep ls ++ join ls) g accept
  = Some (join ls, (i, sep ls) :: g).
Proof. rewrite run_line_end. by destruct ls. Qed.

(** The dot runs to the end of the line. *)
Lemma run_len_any (t T : str) :
  lf_free t -> line_tail T -> run_len Any (t ++ T) = length t.
Proof.
  intros Ht HT. induction t as [|c t IH]; cbn [app run_len length].
  - by destruct HT as [->|[T' ->]].
  - apply lf_free_cons in Ht as [Hc Ht]. cbn [accepts].
    destruct (Ascii.eqb_spec c LF); [done|]. cbn [negb]. by rewrite IH.
Qed.

Lemma strip_prefix_line (w l T : str) :
  lf_free w -> line_tail T ->
  strip_prefix w (l ++ T) =
  match strip_prefix w l with Some t => Some (t ++ T) | None => None end.
Proof.
  intros Hw HT. revert l. induction w as [|c w IH]; intros l; [done|].
  apply lf_free_cons in Hw as [Hc Hw].
  destruct l as [|d l]; cbn [app strip_prefix].
  - destruct HT as [->|[T' ->]]; [done|].
    destruct (Ascii.eqb_spec LF c); [by subst|done].
  - destruct (Ascii.eqb d c); [by apply IH|done].
Qed.

(** ** The ATX passes *)

Section Atx.
(** [w] is the marker looked for, such as ["## "], [w'] the one
    written instead. *)
Variables w w' : str.
Hypothesis w_nonempty : w <> [].
Hypothesis w_lf_free : lf_free w.

Lemma atx_lm_blank (ls : list str) : atx_lm w w' ([] :: ls) = None.
Proof.
  unfold atx_lm, atx_title. by destruct w as [|c u].
Qed.

Lemma atx_lm_count (ls : list str) (n : nat) (out : list str) :
  atx_lm w w' ls = Some (n, out) -> 1 <= n <= length ls /\ out <> [].
Proof.
  destruct ls as [|l ls]; [done|]. unfold atx_lm.
  destruct (atx_title w l); [|done]. intros [= <- <-]. simpl. split; [lia|done].
Qed.

Lemma atx_body_run (b : bool) (g : groups) (l : str) (ls : list str) :
  Forall lf_free (l :: ls) ->
  run (atx_body w) b (join (l :: ls)) g accept =
  match atx_title w l with
  | Some t => Some (join ls, (3, sep ls) :: (2, t) :: g)
  | None => None
  end.
Proof.
  intros Hls. inversion Hls as [|? ? Hl _]; subst.
  unfold atx_body, atx_title. rewrite run_Seq, run_lit by done.
  rewrite join_cons, strip_prefix_line by (done || apply line_tail_join).
  destruct (strip_prefix w l) as [t|] eqn:E; [|done].
  apply strip_prefix_Some in E. subst l.
  apply lf_free_app in Hl as [_ Ht].
  rewrite run_Seq, run_Grp, run_Rep.
  destruct t as [|c t].
  - cbn [app]. apply rep_none. intros j Hj. exfalso.
    destruct ls; simpl in Hj; lia.
  - erewrite rep_longest; [done| |].
    + rewrite run_len_any by (done || apply line_tail_join). simpl. lia.
    + rewrite run_len_any by (done || apply line_tail_join).
      rewrite drop_app_length. cbn [at_start length].
      rewrite run_line_end_tail. by rewrite consumed_app.
Qed.

Lemma atx_body_hit (b : bool) (g1 : str) (ls : list str) (n : nat)
    (out : list str) :
  Forall lf_free ls -> atx_lm w w' ls = Some (n, out) ->
  exists G,
    run (atx_body w) b (join ls) [(1, g1)] accept = Some (join (drop n ls), G)
    /\ forall w0, atx_repl w' (Match w0 G) = g1 ++ join out ++ sep (drop n ls).
Proof.
  intros Hls E. destruct ls as [|l ls]; [done|].
  rewrite atx_body_run by done. unfold atx_lm in E.
  destruct (atx_title w l) as [t|]; [|done]. injection E as <- <-.
  eexists. split; [done|]. intros w0.
  unfold atx_repl, expand. cbn. by rewrite app_nil_r, <- app_assoc.
Qed.

Lemma atx_body_miss (b : bool) (g1 : str) (ls : list str) :
  Forall lf_free ls -> atx_lm w w' ls = None ->
  run (atx_body w) b (join ls) [(1, g1)] accept = None.
Proof.
  intros Hls E. destruct ls as [|l ls].
  - unfold atx_body. rewrite run_Seq, run_lit by done. cbn [join].
    by destruct w.
  - rewrite atx_body_run by done. unfold atx_lm in E.
    by destruct (atx_title w l).
Qed.

Theorem atx_sub_lines (ls : list str) :
  Forall lf_free ls ->
  sub (Grp 1 line_start +> atx_body w) (atx_repl w') (join ls) 0
  = join (atx_lines w w' ls).
Proof.
  apply sub_lines.
  - done.
  - apply atx_lm_blank.
  - apply atx_lm_count.
  - apply atx_body_hit.
  - apply atx_body_miss.
Qed.

End Atx.

(** ** The Setext passes *)

Lemma run_Seq_assoc r1 r2 r3 b s g κ :
  run (r1 +> r2 +> r3) b s g κ
  = run (r1 +> r2) b s g (fun b' s' g' => run r3 b' s' g' κ).
Proof. done. Qed.

Lemma run_len_lt_drop (k : charclass) (j : nat) (s : str) :
  j < run_len k s ->
  exists c s', drop j s = c :: s' /\ accepts k c = true.
Proof.
  revert j. induction s as [|c s IH]; intros j Hj; cbn [run_len] in Hj; [lia|].
  destruct (accepts k c) eqn:E; [|lia].
  destruct j as [|j]; [by eauto|]. cbn [drop]. apply IH. lia.
Qed.

Lemma run_len_mark (d : ascii) (u T : str) :
  d <> LF -> line_tail T -> run_len (Ch d) (u ++ T) = run_len (Ch d) u.
Proof.
  intros Hd HT. induction u as [|c u IH]; cbn [app run_len].
  - destruct HT as [->|[T' ->]]; [done|]. cbn [run_len accepts].
    by destruct (Ascii.eqb_spec LF d).
  - destruct (accepts (Ch d) c); [by rewrite IH|done].
Qed.

Lemma run_len_le (k : charclass) (s : str) : run_len k s <= length s.
Proof.
  induction s as [|c s IH]; cbn [run_len length]; [lia|].
  destruct (accepts k c); lia.
Qed.

Section Underline.
Variable d : ascii.
Hypothesis d_not_lf : d <> LF.
Hypothesis d_not_cr : d <> CR.
Variable i : nat.
Variable h : str -> groups -> groups.

Let κu : cont :=
  fun b' s' g' => run (Grp i line_end) b' s' (h s' g') accept.

Lemma underline_end (b : bool) (u : str) (ls : list str) (g : groups) :
  lf_free u ->
  κu b (drop (run_len (Ch d) u) u ++ sep ls ++ join ls) g =
  match drop (run_len (Ch d) u) u with
  | [] => Some (join ls, (i, sep ls) :: h (sep ls ++ join ls) g)
  | [c] =>
      if Ascii.eqb c CR && more ls
      then Some (join ls, (i, [CR] ++ sep ls)
                          :: h ([CR] ++ sep ls ++ join ls) g)
      else None
  | _ :: _ :: _ => None
  end.
Proof.
  intros Hu. unfold κu.
  assert (lf_free (drop (run_len (Ch d) u) u)) as Hr.
  { rewrite <- (take_drop (run_len (Ch d) u) u) in Hu.
    by apply lf_free_app in Hu as [_ ?]. }
  destruct (drop (run_len (Ch d) u) u) as [|c [|c' r]].
  - cbn [app]. apply run_line_end_tail.
  - rewrite run_line_end. cbn [app].
    apply lf_free_cons in Hr as [Hc _].
    destruct (Ascii.eqb_spec c CR) as [->|Hcr].
    + by destruct ls.
    + by destruct (Ascii.eqb_spec c LF).
  - rewrite run_line_end. cbn [app].
    apply lf_free_cons in Hr as [Hc Hr].
    apply lf_free_cons in Hr as [Hc' _].
    destruct (Ascii.eqb_spec c CR) as [->|Hcr].
    + by destruct (Ascii.eqb_spec c' LF).
    + by destruct (Ascii.eqb_spec c LF).
Qed.

Lemma underline_run (b : bool) (u : str) (ls : list str) (g : groups) :
  lf_free u ->
  rep (Ch d) 2 b (u ++ sep ls ++ join ls) g κu =
  match underline d u (more ls) with
  | Some (n, r) =>
      Some (join ls, (i, r ++ sep ls) :: h (r ++ sep ls ++ join ls) g)
  | None => None
  end.
Proof.
  intros Hu. pose proof (line_tail_join ls) as HT.
  pose proof (run_len_mark d u _ d_not_lf HT) as Hn.
  pose proof (run_len_le (Ch d) u) as Hle.
  assert (drop (run_len (Ch d) u) (u ++ sep ls ++ join ls)
          = drop (run_len (Ch d) u) u ++ sep ls ++ join ls) as Hdrop.
  { rewrite drop_app. replace (run_len (Ch d) u - length u) with 0 by lia.
    done. }
  assert (forall j, j < run_len (Ch d) u ->
            κu (at_start b j) (drop j (u ++ sep ls ++ join ls)) g = None)
    as Hshort.
  { intros j Hj. rewrite <- Hn in Hj.
    destruct (run_len_lt_drop _ _ _ Hj) as (c & s' & -> & Hc).
    cbn [accepts] in Hc. apply Ascii.eqb_eq in Hc as ->.
    unfold κu. rewrite run_line_end.
    destruct (Ascii.eqb_spec d CR); [done|].
    by destruct (Ascii.eqb_spec d LF). }
  unfold underline. destruct (Nat.leb_spec 2 (run_len (Ch d) u)) as [H2|H2].
  - pose proof (underline_end (at_start b (run_len (Ch d) u)) u ls g Hu)
      as Hend.
    rewrite <- Hdrop in Hend at 1.
    destruct (κu (at_start b (run_len (Ch d) u))
                (drop (run_len (Ch d) u) (u ++ sep ls ++ join ls)) g)
      as [x|] eqn:E.
    + rewrite (rep_longest _ _ _ _ _ _ x); [| lia | by rewrite Hn].
      rewrite Hend.
      destruct (drop (run_len (Ch d) u) u) as [|c [|c' r]]; [done| |done].
      by destruct (Ascii.eqb c CR && more ls).
    + rewrite rep_none.
      * destruct (drop (run_len (Ch d) u) u) as [|c [|c' r]]; [done| |done].
        by destruct (Ascii.eqb c CR && more ls).
      * intros j Hj. rewrite Hn in Hj.
        destruct (decide (j = run_len (Ch d) u)) as [->|Hne]; [done|].
        apply Hshort. lia.
  - apply rep_none. intros j Hj. rewrite Hn in Hj. lia.
Qed.

End Underline.

(** [\r?\n] cannot start inside a line, unless the line is a lone
    carriage return. *)
Lemma newline_in_line (b : bool) (t T : str) (g : groups) (κ : cont) :
  lf_free t -> t <> [] -> line_tail T ->
  (forall T', T = LF :: T' -> κ false T' g = None) ->
  run (Opt (Ch CR) +> One (Ch LF)) b (t ++ T) g κ = None.
Proof.
  intros Ht Hne HT Hκ. rewrite run_newline.
  destruct t as [|c t]; [done|]. cbn [app].
  apply lf_free_cons in Ht as [Hc Ht].
  destruct (Ascii.eqb_spec c CR) as [->|Hcr].
  - destruct t as [|c' t]; cbn [app].
    + destruct HT as [->|[T' ->]]; [done|]. cbn. by apply Hκ.
    + apply lf_free_cons in Ht as [Hc' _]. by destruct (Ascii.eqb_spec c' LF).
  - by destruct (Ascii.eqb_spec c LF).
Qed.

Lemma newline_at_tail (b : bool) (ls : list str) (g : groups) (κ : cont) :
  run (Opt (Ch CR) +> One (Ch LF)) b (sep ls ++ join ls) g κ =
  match ls with [] => None | _ :: _ => κ false (join ls) g end.
Proof. rewrite run_newline. by destruct ls. Qed.

Section SetextText.
(** [R] is what the pattern has after [(.+)\r?\n]. *)
Variable R : regex.

Lemma setext_body_unfold (b : bool) (s : str) (g : groups) :
  run (setext_body R) b s g accept =
  rep Any 1 b s g
    (fun b' s' g' =>
       run (Opt (Ch CR) +> One (Ch LF)) b' s' ((2, consumed s s') :: g')
         (fun b'' s'' g'' => run R b'' s'' g'' accept)).
Proof. done. Qed.

Lemma setext_text_hit (b : bool) (g : groups) (t : str) (ls : list str)
    (x : str * groups) :
  lf_free t -> t <> [] -> ls <> [] ->
  run R false (join ls) ((2, t) :: g) accept = Some x ->
  run (setext_body R) b (join (t :: ls)) g accept = Some x.
Proof.
  intros Ht Hne Hls HR. rewrite setext_body_unfold, join_cons.
  apply rep_longest.
  - rewrite run_len_any by (done || apply line_tail_join).
    destruct t; [done|simpl; lia].
  - rewrite run_len_any by (done || apply line_tail_join).
    rewrite drop_app_length, consumed_app, newline_at_tail.
    by destruct ls.
Qed.

Lemma setext_text_miss (b : bool) (g : groups) (t : str) (ls : list str) :
  lf_free t ->
  (ls <> [] -> forall g', run R false (join ls) g' accept = None) ->
  run (setext_body R) b (join (t :: ls)) g accept = None.
Proof.
  intros Ht HR. rewrite setext_body_unfold, join_cons.
  apply rep_none. intros j Hj.
  rewrite run_len_any in Hj by (done || apply line_tail_join).
  destruct (decide (j = length t)) as [->|Hne].
  - rewrite drop_app_length, newline_at_tail.
    destruct ls as [|l ls]; [done|]. by apply HR.
  - rewrite drop_app_le by lia.
    apply newline_in_line.
    + rewrite <- (take_drop j t) in Ht. by apply lf_free_app in Ht as [_ ?].
    + intros H. apply (f_equal length) in H. rewrite length_drop in H.
      simpl in H. lia.
    + apply line_tail_join.
    + intros T' HT'. destruct ls as [|l ls]; [done|].
      cbn [sep app] in HT'. injection HT' as <-. by apply HR.
Qed.

End SetextText.

Lemma underline_count (d : ascii) (u : str) (followed : bool) (n : nat)
    (r : str) :
  underline d u followed = Some (n, r) ->
  n = run_len (Ch d) u /\ 2 <= n <= length u /\ r = drop n u.
Proof.
  unfold underline. pose proof (run_len_le (Ch d) u).
  destruct (Nat.leb_spec 2 (run_len (Ch d) u)); [|done].
  destruct (drop (run_len (Ch d) u) u) as [|c [|c' r']] eqn:E; [| |done].
  - intros [= <- <-]. by rewrite E.
  - destruct (Ascii.eqb_spec c CR) as [->|]; [|done].
    destruct followed; [|done]. intros [= <- <-]. by rewrite E.
Qed.

(** *** Level 2: a line under which dashes run *)

Lemma s2_rest_run (g : groups) (u : str) (ls : list str) :
  lf_free u ->
  run s2_rest false (join (u :: ls)) g accept =
  match underline dash u (more ls) with
  | Some (n, r) => Some (join ls, (3, r ++ sep ls) :: g)
  | None => None
  end.
Proof.
  intros Hu. rewrite join_cons.
  apply (underline_run dash ltac:(done) ltac:(done) 3 (fun _ g' => g')).
  done.
Qed.

Lemma s2_body_run (b : bool) (g : groups) (ls : list str) :
  Forall lf_free ls ->
  run (setext_body s2_rest) b (join ls) g accept =
  match ls with
  | (c :: t) :: u :: rest =>
      match underline dash u (more rest) with
      | Some (n, r) =>
          Some (join rest, (3, r ++ sep rest) :: (2, c :: t) :: g)
      | None => None
      end
  | _ => None
  end.
Proof.
  intros Hls. destruct ls as [|t ls]; [done|].
  inversion Hls as [|? ? Ht Hls']; subst.
  destruct ls as [|u rest].
  { rewrite setext_text_miss; [by destruct t|done..]. }
  inversion Hls' as [|? ? Hu _]; subst.
  destruct t as [|c t].
  { rewrite setext_body_unfold, join_cons. cbn [app sep].
    by apply rep_none; intros j Hj; simpl in Hj; lia. }
  destruct (underline dash u (more rest)) as [[n r]|] eqn:E.
  - apply setext_text_hit; [done..|]. by rewrite s2_rest_run, E.
  - apply setext_text_miss; [done|]. intros _ g'.
    by rewrite s2_rest_run, E.
Qed.

Lemma s2_sub_lines (ls : list str) :
  Forall lf_free ls ->
  sub (Grp 1 line_start +> setext_body s2_rest) s2_repl (join ls) 0
  = join (walk s2_lm true 0 ls).
Proof.
  apply sub_lines.
  - done.
  - done.
  - intros ls' n out E. unfold s2_lm in E.
    destruct ls' as [|[|c t] [|u rest]]; try done.
    destruct (underline dash u (more rest)) as [[m r]|]; [|done].
    injection E as <- <-. simpl. split; [lia|done].
  - intros b g1 ls' n out Hls' E. rewrite s2_body_run by done.
    unfold s2_lm in E.
    destruct ls' as [|[|c t] [|u rest]]; try done.
    destruct (underline dash u (more rest)) as [[m r]|]; [|done].
    injection E as <- <-. eexists. split; [done|]. intros w0.
    unfold s2_repl, expand. cbn. by rewrite app_nil_r, <- !app_assoc.
  - intros b g1 ls' Hls' E. rewrite s2_body_run by done.
    unfold s2_lm in E.
    destruct ls' as [|[|c t] [|u rest]]; try done.
    by destruct (underline dash u (more rest)) as [[m r]|].
Qed.

(** *** Level 1: a line under which equal signs run *)

Lemma s1_rest_run (g : groups) (u : str) (ls : list str) :
  lf_free u ->
  run s1_rest false (join (u :: ls)) g accept =
  match underline equal u (more ls) with
  | Some (n, r) => Some (join ls, (4, r ++ sep ls) :: (3, take n u) :: g)
  | None => None
  end.
Proof.
  intros Hu. rewrite join_cons.
  unfold s1_rest. rewrite run_Seq, run_Grp, run_Rep.
  rewrite (underline_run equal ltac:(done) ltac:(done) 4
             (fun s' g' => (3, consumed (u ++ sep ls ++ join ls) s') :: g'))
    by done.
  destruct (underline equal u (more ls)) as [[n r]|] eqn:E; [|done].
  apply underline_count in E as (_ & _ & ->).
  replace (u ++ sep ls ++ join ls)
    with (take n u ++ drop n u ++ sep ls ++ join ls)
    by (by rewrite app_assoc, take_drop).
  by rewrite consumed_app.
Qed.

Lemma s1_body_run (b : bool) (g : groups) (ls : list str) :
  Forall lf_free ls ->
  run (setext_body s1_rest) b (join ls) g accept =
  match ls with
  | (c :: t) :: u :: rest =>
      match underline equal u (more rest) with
      | Some (n, r) =>
          Some (join rest,
                (4, r ++ sep rest) :: (3, take n u) :: (2, c :: t) :: g)
      | None => None
      end
  | _ => None
  end.
Proof.
  intros Hls. destruct ls as [|t ls]; [done|].
  inversion Hls as [|? ? Ht Hls']; subst.
  destruct ls as [|u rest].
  { rewrite setext_text_miss; [by destruct t|done..]. }
  inversion Hls' as [|? ? Hu _]; subst.
  destruct t as [|c t].
  { rewrite setext_body_unfold, join_cons. cbn [app sep].
    by apply rep_none; intros j Hj; simpl in Hj; lia. }
  destruct (underline equal u (more rest)) as [[n r]|] eqn:E.
  - apply setext_text_hit; [done..|]. by rewrite s1_rest_run, E.
  - apply setext_text_miss; [done|]. intros _ g'.
    by rewrite s1_rest_run, E.
Qed.

Lemma s1_sub_lines (ls : list str) :
  Forall lf_free ls ->
  sub (Grp 1 line_start +> setext_body s1_rest) repl_title_1_long (join ls) 0
  = join (walk s1_lm true 0 ls).
Proof.
  apply sub_lines.
  - done.
  - done.
  - intros ls' n out E. unfold s1_lm in E.
    destruct ls' as [|[|c t] [|u rest]]; try done.
    destruct (underline equal u (more rest)) as [[m r]|]; [|done].
    injection E as <- <-. simpl. split; [lia|done].
  - intros b g1 ls' n out Hls' E. rewrite s1_body_run by done.
    unfold s1_lm in E.
    destruct ls' as [|[|c t] [|u rest]]; try done.
    destruct (underline equal u (more rest)) as [[m r]|] eqn:Eu; [|done].
    injection E as <- <-. eexists. split; [done|]. intros w0.
    apply underline_count in Eu as (_ & [_ Hm] & _).
    unfold repl_title_1_long. cbn [mgroup group Nat.eqb grps].
    rewrite length_take, Nat.min_l by done.
    rewrite join_cons. cbn [sep drop join]. by rewrite <- !app_assoc.
  - intros b g1 ls' Hls' E. rewrite s1_body_run by done.
    unfold s1_lm in E.
    destruct ls' as [|[|c t] [|u rest]]; try done.
    by destruct (underline equal u (more rest)) as [[m r]|].
Qed.

(** ** All passes together *)

Lemma walk_lf_free (lm : list str -> option (nat * list str)) :
  (forall ls n out,
     Forall lf_free ls -> lm ls = Some (n, out) -> Forall lf_free out) ->
  forall ls avail skip,
    Forall lf_free ls -> Forall lf_free (walk lm avail skip ls).
Proof.
  intros Hlm ls. induction ls as [|l ls IH]; intros avail skip Hls; [done|].
  inversion Hls as [|? ? Hl Hls']; subst. cbn [walk].
  destruct skip as [|k]; [|by apply IH].
  destruct (if avail then lm (l :: ls) else None) as [[n out]|] eqn:E.
  - destruct avail; [|done]. apply Forall_app. split; [by apply (Hlm (l :: ls) n out)|by apply IH].
  - constructor; [done|by apply IH].
Qed.

Lemma lf_free_drop (n : nat) (u : str) : lf_free u -> lf_free (drop n u).
Proof.
  intros Hu. rewrite <- (take_drop n u) in Hu. by apply lf_free_app in Hu as [_ ?].
Qed.

Lemma lf_free_repeat (c : ascii) (n : nat) : c <> LF -> lf_free (repeat c n).
Proof.
  intros Hc. induction n as [|n IH]; [apply lf_free_nil|].
  by apply lf_free_cons.
Qed.

Lemma atx_lines_lf_free (w w' : str) (ls : list str) :
  lf_free w' -> Forall lf_free ls -> Forall lf_free (atx_lines w w' ls).
Proof.
  intros Hw'. apply walk_lf_free. intros ls' n out Hls' E.
  destruct ls' as [|l ls']; [done|]. unfold atx_lm, atx_title in E.
  destruct (strip_prefix w l) as [[|c t]|] eqn:Es; try done.
  injection E as <- <-. inversion Hls' as [|? ? Hl _]; subst.
  apply strip_prefix_Some in Es. subst l.
  apply lf_free_app in Hl as [_ Ht].
  constructor; [|done]. by apply lf_free_app.
Qed.

Lemma s2_lines_lf_free (ls : list str) :
  Forall lf_free ls -> Forall lf_free (walk s2_lm true 0 ls).
Proof.
  apply walk_lf_free. intros ls' n out Hls' E. unfold s2_lm in E.
  destruct ls' as [|[|c t] [|u rest]]; try done.
  destruct (underline dash u (more rest)) as [[m r]|] eqn:Eu; [|done].
  injection E as <- <-. apply underline_count in Eu as (_ & _ & ->).
  inversion Hls' as [|? ? Ht Hls'']; subst.
  inversion Hls'' as [|? ? Hu _]; subst.
  constructor; [|done].
  change (lf_free (txt "### " ++ (c :: t) ++ drop m u)).
  apply lf_free_app. split; [by apply (bool_decide_unpack _)|].
  apply lf_free_app. split; [done|by apply lf_free_drop].
Qed.

Lemma txt_lf_free_5 : lf_free (txt "##### ").
Proof. unfold lf_free. by apply (bool_decide_unpack _). Qed.

Theorem shift_markdown_headers_lines (ls : list str) :
  Forall lf_free ls ->
  shift_markdown_headers (join ls) = join (shift_lines ls).
Proof.
  intros Hls. unfold shift_markdown_headers, shift_lines.
  change re_title_5 with (Grp 1 line_start +> atx_body (txt "##### "))%re.
  change re_title_4 with (Grp 1 line_start +> atx_body (txt "#### "))%re.
  change re_title_3 with (Grp 1 line_start +> atx_body (txt "### "))%re.
  change re_title_2 with (Grp 1 line_start +> atx_body (txt "## "))%re.
  change re_title_1 with (Grp 1 line_start +> atx_body (txt "# "))%re.
  change re_title_2_long with (Grp 1 line_start +> setext_body s2_rest)%re.
  change re_title_1_long with (Grp 1 line_start +> setext_body s1_rest)%re.
  change (expand [TGrp 1; TLit (txt "###### "); TGrp 2; TGrp 3])
    with (atx_repl (txt "###### ")).
  change (expand [TGrp 1; TLit (txt "##### "); TGrp 2; TGrp 3])
    with (atx_repl (txt "##### ")).
  change (expand [TGrp 1; TLit (txt "#### "); TGrp 2; TGrp 3])
    with (atx_repl (txt "#### ")).
  change (expand [TGrp 1; TLit (txt "### "); TGrp 2; TGrp 3])
    with (atx_repl (txt "### ")).
  change (expand [TGrp 1; TLit (txt "## "); TGrp 2; TGrp 3])
    with (atx_repl (txt "## ")).
  assert (forall w : string, bool_decide (LF ∉ txt w) = true -> lf_free (txt w))
    as Hfree by (intros w Hw; by apply bool_decide_eq_true in Hw).
  rewrite atx_sub_lines; [|done|by apply Hfree|done].
  rewrite atx_sub_lines; [|done|by apply Hfree|by apply atx_lines_lf_free; [apply Hfree|] ].
  rewrite atx_sub_lines; [|done|by apply Hfree|
    by repeat (apply atx_lines_lf_free; [by apply Hfree|]) ].
  rewrite atx_sub_lines; [|done|by apply Hfree|
    by repeat (apply atx_lines_lf_free; [by apply Hfree|]) ].
  rewrite atx_sub_lines; [|done|by apply Hfree|
    by repeat (apply atx_lines_lf_free; [by apply Hfree|]) ].
  change (atx_repl (txt "### ")) with s2_repl.
  rewrite s2_sub_lines
    by (by repeat (apply atx_lines_lf_free; [by apply Hfree|])).
  rewrite s1_sub_lines; [done|].
  apply s2_lines_lf_free.
  by repeat (apply atx_lines_lf_free; [by apply Hfree|]).
Qed.

(** X1. What the seven substitutions of [shift_markdown_headers] do
    to a text is what [shift_lines] does to its lines: each pass goes
    down the lines, a match starts at the start of a line, takes the
    line break behind its last line with it, and so leaves the next
    line without the line break a match needs in front. *)
Corollary shift_markdown_headers_by_lines (s : str) :
  shift_markdown_headers s = join (shift_lines (lines s)).
Proof.
  rewrite <- (join_lines s) at 1.
  apply shift_markdown_headers_lines, lines_lf_free.
Qed.

(** ** A blank line separates what the passes do *)

Lemma atx_lm_local (w w' : str) : local (atx_lm w w').
Proof.
  assert (Hb : forall ls, atx_lm w w' ([] :: ls) = None).
  { intros ls. unfold atx_lm, atx_title. by destruct w. }
  split.
  - exact Hb.
  - intros [|l ls] n out; [done|]. unfold atx_lm.
    destruct (atx_title w l); [|done]. by intros [= <- <-].
  - intros [|x xs] n out H; [cbn [app] in H; by rewrite Hb in H|].
    revert H. unfold atx_lm. cbn [app].
    destruct (atx_title w x); [|done]. intros [= <- <-]. cbn [length]. lia.
  - intros [|x xs] ys Hne; [done|]. reflexivity.
Qed.

Lemma setext_lm_local (d : ascii) (f : str -> nat -> str -> list str) :
  (forall t n r, f t n r <> []) ->
  local (fun ls =>
    match ls with
    | (c :: t) :: u :: rest =>
        match underline d u (more rest) with
        | Some (n, r) => Some (2, f (c :: t) n r)
        | None => None
        end
    | _ => None
    end).
Proof.
  intros Hf. split.
  - done.
  - intros [|[|c t] [|u rest]] n out; try done.
    destruct (underline d u (more rest)) as [[m r]|]; [|done].
    intros [= <- <-]. apply Hf.
  - intros [|[|c t] [|u xs]] n out; try done.
    cbn [app]. destruct (underline d u _) as [[m r]|]; [|done].
    intros [= <- <-]. cbn [length]. lia.
  - intros [|[|c t] [|u xs]] ys Hne; try done.
    cbn [app]. by destruct xs.
Qed.

Lemma s2_lm_local : local s2_lm.
Proof.
  exact (setext_lm_local dash (fun t n r => [txt "### " ++ t ++ r]) ltac:(done)).
Qed.

Lemma s1_lm_local : local s1_lm.
Proof.
  exact (setext_lm_local equal (fun t n r => [t; repeat dash n ++ r]) ltac:(done)).
Qed.

(** The lines in front of a blank line are rewritten on their own, and
    so are the lines behind it. *)
Lemma walk_blank_line (lm : list str -> option (nat * list str)) (xs ys : list str) :
  local lm ->
  forall avail skip, skip <= length xs ->
  exists W,
    walk lm avail skip (xs ++ [[]]) = W ++ [[]]
    /\ walk lm avail skip (xs ++ [] :: ys) = W ++ [] :: walk lm true 0 ys
    /\ (skip < length xs -> W <> []).
Proof.
  intros Hl. induction xs as [|x xs IH]; intros avail skip Hskip.
  - assert (skip = 0) as -> by (cbn in Hskip; lia).
    exists []. cbn [app walk].
    rewrite !(local_blank _ Hl). destruct avail; (split; [done|split; [done|cbn; lia]]).
  - cbn [app walk]. destruct skip as [|k].
    + pose proof (local_beyond _ Hl (x :: xs) ys ltac:(done)) as Hb.
      cbn [app] in Hb. rewrite Hb. clear Hb.
      destruct (if avail then lm (x :: xs ++ [[]]) else None) as [[n out]|] eqn:E.
      * destruct avail; [|done].
        pose proof (local_count _ Hl _ _ _ E) as Hout.
        apply (local_before _ Hl (x :: xs)) in E. cbn [length] in E.
        destruct (IH false (pred n)) as (W & E1 & E2 & _); [lia|].
        exists (out ++ W). rewrite E1, E2, <- !app_assoc.
        split; [done|split; [done|]]. intros _. by destruct out.
      * destruct (IH true 0) as (W & E1 & E2 & _); [lia|].
        exists (x :: W). rewrite E1, E2. done.
    + cbn [length] in Hskip.
      destruct (IH false k) as (W & E1 & E2 & Hne); [lia|].
      exists W. split; [done|split; [done|]]. cbn [length]. intros ?. apply Hne. lia.
Qed.

Lemma splits_walk (lm : list str -> option (nat * list str)) :
  local lm -> splits (walk lm true 0).
Proof.
  intros Hl xs ys Hne.
  destruct (walk_blank_line lm xs ys Hl true 0) as (W & E1 & E2 & HW); [lia|].
  exists W. split; [|done]. apply HW. destruct xs; [done|cbn; lia].
Qed.

Lemma splits_compose (f g : list str -> list str) :
  splits f -> splits g -> splits (fun ls => g (f ls)).
Proof.
  intros Hf Hg xs ys Hne.
  destruct (Hf xs ys Hne) as (W & HW & E1 & E2).
  destruct (Hg W (f ys) HW) as (V & HV & F1 & F2).
  exists V. rewrite E1, E2. done.
Qed.

Lemma splits_shift_lines : splits shift_lines.
Proof.
  unfold shift_lines, atx_lines.
  do 6 (apply (splits_compose _ (walk _ true 0));
        [|apply splits_walk;
          first [apply atx_lm_local|apply s2_lm_local|apply s1_lm_local] ]).
  apply splits_walk, atx_lm_local.
Qed.

Lemma shift_lines_nonempty (ls : list str) : ls <> [] -> shift_lines ls <> [].
Proof.
  assert (H : forall lm ls, local lm -> ls <> [] -> walk lm true 0 ls <> []).
  { intros lm [|l ls'] Hl; [done|]. intros _. cbn [walk].
    destruct (lm (l :: ls')) as [[n out]|] eqn:E; [|done].
    apply (local_count _ Hl) in E. by destruct out. }
  intros Hne. unfold shift_lines, atx_lines.
  repeat (apply H; [first [apply atx_lm_local|apply s2_lm_local|apply s1_lm_local]|]).
  exact Hne.
Qed.

Lemma join_blank_line (xs ys : list str) :
  xs <> [] -> ys <> [] -> join (xs ++ [] :: ys) = join xs ++ [LF; LF] ++ join ys.
Proof.
  intros Hx Hy. rewrite join_app by done. rewrite join_cons.
  destruct ys; [done|]. reflexivity.
Qed.

Lemma join_last_blank (xs : list str) :
  xs <> [] -> join (xs ++ [[]]) = join xs ++ [LF].
Proof. intros Hx. by rewrite join_app. Qed.

(** Two parts of a text that a blank line separates are shifted each
    on its own. *)
Theorem shift_markdown_headers_blank_line (X Y : str) :
  shift_markdown_headers (X ++ [LF; LF] ++ Y)
  = shift_markdown_headers (X ++ [LF]) ++ [LF] ++ shift_markdown_headers Y.
Proof.
  pose proof (lines_nonempty X) as HX. pose proof (lines_nonempty Y) as HY.
  rewrite <- (join_lines X), <- (join_lines Y).
  rewrite <- join_blank_line, <- join_last_blank by done.
  rewrite !shift_markdown_headers_lines;
    try (repeat first [apply Forall_app; split | apply Forall_cons; split
                      | apply lines_lf_free | apply lf_free_nil | apply List.Forall_nil]).
  destruct (splits_shift_lines (lines X) (lines Y) HX) as (W & HW & E1 & E2).
  rewrite E1, E2.
  rewrite join_blank_line, join_last_blank by (done || by apply shift_lines_nonempty).
  by rewrite <- !app_assoc.
Qed.

(** ** Documents of ATX headers *)
















(** ** A Setext header of level 1 *)

Lemma not_atx_header_title (k : nat) (l : str) :
  not_atx_header l = true -> 1 <= k <= 5 -> atx_title (marker k) l = None.
Proof.
  unfold not_atx_header. rewrite negb_true_iff. intros H Hk.
  assert (is_header_line k l = false) as Hl.
  { cbn [existsb] in H. rewrite !orb_false_iff in H.
    destruct H as (H1 & H2 & H3 & H4 & H5 & _).
    destruct k as [|[|[|[|[|[|k]]]]]]; (lia || done). }
  unfold is_header_line in Hl. by destruct (atx_title (marker k) l).
Qed.

(** An ATX pass leaves a text without headers of its level as it is. *)
Lemma walk_without_header (w w' : str) (ls : list str) (avail : bool) :
  Forall (fun l => atx_title w l = None) ls ->
  walk (atx_lm w w') avail 0 ls = ls.
Proof.
  intros Hls. revert avail. induction ls as [|l ls IH]; intros avail; [done|].
  inversion Hls as [|? ? Hl Hls']; subst. cbn [walk]. unfold atx_lm at 1.
  rewrite Hl.
  replace (if avail then None else None) with (@None (nat * list str))
    by (by destruct avail).
  f_equal. by apply IH.
Qed.

Lemma run_len_repeat (d : ascii) (n : nat) :
  run_len (Ch d) (repeat d n) = n.
Proof.
  induction n as [|n IH]; [done|]. cbn [repeat run_len accepts].
  by rewrite Ascii.eqb_refl, IH.
Qed.

Lemma underline_repeat (d : ascii) (n : nat) (f : bool) :
  2 <= n -> underline d (repeat d n) f = Some (n, []).
Proof.
  intros Hn. unfold underline. rewrite run_len_repeat.
  replace (Nat.leb 2 n) with true by (symmetry; by apply Nat.leb_le).
  rewrite drop_ge; [done|]. by rewrite repeat_length.
Qed.


Lemma atx_title_repeat (k : nat) (d : ascii) (n : nat) :
  d <> hash -> 1 <= k -> atx_title (marker k) (repeat d n) = None.
Proof.
  intros Hd Hk. unfold atx_title.
  destruct k; [lia|]. destruct n; [done|].
  change (marker (S k)) with (hash :: marker k). cbn [repeat strip_prefix].
  destruct (Ascii.eqb_spec d hash); [congruence|done].
Qed.

(** The five ATX passes leave a line that is no header, over a line of
    marks, as they are. *)
Lemma atx_passes_setext (t : str) (d : ascii) (n : nat) (e : list str) :
  not_atx_header t = true -> d <> hash -> (e = [] \/ e = [[]]) ->
  let ls := [t; repeat d n] ++ e in
  atx_lines (txt "# ") (txt "## ")
    (atx_lines (txt "## ") (txt "### ")
       (atx_lines (txt "### ") (txt "#### ")
          (atx_lines (txt "#### ") (txt "##### ")
             (atx_lines (txt "##### ") (txt "###### ") ls)))) = ls.
Proof.
  intros Ht Hd He ls.
  assert (forall k, 1 <= k <= 5 ->
            Forall (fun l => atx_title (marker k) l = None) ls) as Hno.
  { intros k Hk. unfold ls.
    constructor; [by apply not_atx_header_title|].
    constructor; [apply atx_title_repeat; [done|lia]|].
    destruct He as [-> | ->]; [done|].
    constructor; [|done]. destruct k; [lia|done]. }
  unfold atx_lines.
  change (txt "##### ") with (marker 5).
  change (txt "#### ") with (marker 4).
  change (txt "### ") with (marker 3).
  change (txt "## ") with (marker 2).
  change (txt "# ") with (marker 1).
  rewrite (walk_without_header (marker 5)) by (apply Hno; lia).
  rewrite (walk_without_header (marker 4)) by (apply Hno; lia).
  rewrite (walk_without_header (marker 3)) by (apply Hno; lia).
  rewrite (walk_without_header (marker 2)) by (apply Hno; lia).
  by rewrite (walk_without_header (marker 1)) by (apply Hno; lia).
Qed.


Lemma setext_join (t : str) (d : ascii) (n : nat) (e : list str) :
  join ([t; repeat d n] ++ e) = setext t d n ++ sep e ++ join e.
Proof.
  unfold setext. cbn [app]. rewrite !join_cons. cbn [sep].
  by rewrite <- app_assoc.
Qed.





(** ** Adjacent headers, and shifting twice *)

(** C1. Of two headers of one level on adjacent lines only the first
    is shifted: its match takes the line feed the second one needs in
    front of it. *)
Theorem shift_adjacent_headers :
  shift_markdown_headers (join [txt "# A"; txt "# B"])
  = join [txt "## A"; txt "# B"]
  /\ shift_markdown_headers (join [txt "A"; txt "=="; txt "B"; txt "=="])
     = join [txt "A"; txt "--"; txt "B"; txt "=="].
Proof. split; by vm_compute. Qed.

(** C9. Shifting is not idempotent: a header of level 1 goes to level 2,
    and from there to level 3. *)
Theorem shift_not_idempotent :
  shift_markdown_headers (txt "# Head") = txt "## Head"
  /\ shift_markdown_headers (shift_markdown_headers (txt "# Head"))
     = txt "### Head"
  /\ exists s,
       shift_markdown_headers (shift_markdown_headers s)
       <> shift_markdown_headers s.
Proof.
  split; [by vm_compute|]. split; [by vm_compute|].
  exists (txt "# Head"). by vm_compute.
Qed.

(** ** The image pattern *)

Lemma run_len_stop (k : charclass) (s : str) (c : ascii) (rest : str) :
  drop (run_len k s) s = c :: rest -> accepts k c = false.
Proof.
  induction s as [|d s IH]; [done|]. cbn [run_len].
  destruct (accepts k d) eqn:E; [done|]. by intros [= <- _].
Qed.

(** A run of characters other than [c], before a pattern that needs
    [c] next: the run is taken whole. *)
Lemma rep_until (c : ascii) (b : bool) (s : str) (g : groups) (κ : cont) :
  (forall b' d s', d <> c -> κ b' (d :: s') g = None) ->
  rep (NotCh c) 1 b s g κ =
  match run_len (NotCh c) s with
  | 0 => None
  | S n => κ false (drop (S n) s) g
  end.
Proof.
  intros Hκ.
  assert (forall j, j < run_len (NotCh c) s ->
            κ (at_start b j) (drop j s) g = None) as Hshort.
  { intros j Hj. destruct (run_len_lt_drop _ _ _ Hj) as (d & s' & -> & Hd).
    apply Hκ. cbn [accepts] in Hd. apply negb_true_iff in Hd.
    by apply Ascii.eqb_neq in Hd. }
  destruct (run_len (NotCh c) s) as [|n] eqn:En.
  - apply rep_none. intros j Hj. rewrite En in Hj. lia.
  - destruct (κ false (drop (S n) s) g) as [r|] eqn:Er.
    + apply rep_longest; rewrite En; [lia|done].
    + apply rep_none. intros j Hj. rewrite En in Hj.
      destruct (decide (j = S n)) as [->|Hne]; [done|].
      apply Hshort. lia.
Qed.

Lemma try_match_image (bos : bool) (s : str) :
  try_match re_image bos s =
  match image_at s with
  | Some (a, u, rest) => Some (Match (consumed s rest) [(2, u); (1, a)])
  | None => None
  end.
Proof.
  unfold try_match, re_image, image_at.
  rewrite run_Seq, run_lit by done.
  destruct (strip_prefix (txt "![") s) as [s1|]; [|done].
  rewrite run_Seq, run_Grp, run_Rep, rep_until.
  2:{ intros b' d s' Hd. rewrite run_Seq, run_lit by done.
      cbn [txt list_ascii_of_string strip_prefix].
      by destruct (Ascii.eqb_spec d "]"). }
  destruct (run_len (NotCh "]") s1) as [|n] eqn:En; [done|].
  rewrite run_Seq, run_lit by done.
  destruct (strip_prefix (txt "](") (drop (S n) s1)) as [s2|] eqn:E2; [|done].
  rewrite run_Seq, run_Grp, run_Rep, rep_until.
  2:{ intros b' d s' Hd. cbn [run accepts].
      by destruct (Ascii.eqb_spec d ")"). }
  destruct (run_len (NotCh ")") s2) as [|k] eqn:Ek; [done|].
  pose proof (run_len_le (NotCh "]") s1) as Hn. rewrite En in Hn.
  pose proof (run_len_le (NotCh ")") s2) as Hk. rewrite Ek in Hk.
  assert (consumed s1 (drop (S n) s1) = take (S n) s1) as ->.
  { rewrite <- (take_drop (S n) s1) at 1. by rewrite consumed_app. }
  assert (consumed s2 (drop (S k) s2) = take (S k) s2) as ->.
  { rewrite <- (take_drop (S k) s2) at 1. by rewrite consumed_app. }
  destruct (drop (S k) s2) as [|c rest] eqn:Ed; [done|].
  cbn [run accepts].
  destruct (Ascii.eqb_spec c ")") as [->|Hc]; [done|].
  exfalso. rewrite <- Ek in Ed. apply run_len_stop in Ed.
  cbn [accepts] in Ed. apply negb_false_iff, Ascii.eqb_eq in Ed. done.
Qed.

Lemma image_at_other (c : ascii) (s : str) : c <> bang -> image_at (c :: s) = None.
Proof.
  intros Hc. unfold image_at. cbn [txt list_ascii_of_string strip_prefix].
  by destruct (Ascii.eqb_spec c "!").
Qed.


Lemma run_len_not (c : ascii) (a s : str) :
  c ∉ a -> run_len (NotCh c) (a ++ c :: s) = length a.
Proof.
  intros Ha. induction a as [|d a IH]; cbn [app run_len accepts length].
  - by rewrite Ascii.eqb_refl.
  - apply not_elem_of_cons in Ha as [Hd Ha].
    destruct (Ascii.eqb_spec d c); [congruence|]. cbn [negb]. by rewrite IH.
Qed.


Lemma scan_image_bos (limit : option nat) (bos : bool) (s : str) :
  scan re_image limit bos 0 s = scan re_image limit false 0 s.
Proof. by rewrite !scan_zero, !try_match_image. Qed.

Lemma scan_image_miss (limit : option nat) (bos : bool) (c : ascii) (s : str) :
  image_at (c :: s) = None ->
  scan re_image limit bos 0 (c :: s) = Text c :: scan re_image limit false 0 s.
Proof.
  intros H. apply scan_miss. by rewrite try_match_image, H.
Qed.

(** Where there is no [!], nothing matches. *)
Lemma scan_image_texts (limit : option nat) (bos : bool) (l rest : str) :
  bang ∉ l ->
  scan re_image limit bos 0 (l ++ rest)
  = map Text l ++ scan re_image limit false 0 rest.
Proof.
  revert bos. induction l as [|c l IH]; intros bos Hl.
  - apply scan_image_bos.
  - apply not_elem_of_cons in Hl as [Hc Hl]. cbn [app map].
    rewrite scan_image_miss by (by apply image_at_other). f_equal.
    by apply IH.
Qed.

(** Texts are copied; the state is not looked at. *)
Lemma sub_pieces_texts {S : Type} (repl : rmatch -> M S str) (l : str)
    (ps : list piece) (st : S) :
  sub_pieces repl (map Text l ++ ps) st =
  match sub_pieces repl ps st with
  | (Ok outs, st') => (Ok (map (fun c => [c]) l ++ outs), st')
  | (Raise e, st') => (Raise e, st')
  end.
Proof.
  induction l as [|c l IH]; cbn [map app sub_pieces].
  - by destruct (sub_pieces repl ps st) as [[outs|e] st'].
  - unfold bind at 1. rewrite IH.
    by destruct (sub_pieces repl ps st) as [[outs|e] st'].
Qed.

Lemma concat_singletons (l : str) : concat (map (fun c => [c]) l) = l.
Proof. induction l as [|c l IH]; [done|]. cbn. by rewrite IH. Qed.



(** ** The names of [UniqueSlugify] *)

Lemma decimal_inj (j k : nat) : decimal j = decimal k -> j = k.
Proof.
  unfold decimal, txt. intros H.
  apply (f_equal string_of_list_ascii) in H.
  rewrite !string_of_list_ascii_of_string in H.
  apply (f_equal NilEmpty.uint_of_string) in H.
  rewrite !NilEmpty.usu in H.
  injection H as H.
  apply (f_equal Nat.of_uint) in H.
  now rewrite !DecimalNat.Unsigned.of_to in H.
Qed.

Lemma candidate_inj (text : str) (j k : nat) :
  candidate text j = candidate text k -> j = k.
Proof.
  destruct j as [|j], k as [|k]; cbn [candidate]; intros H.
  - reflexivity.
  - apply (f_equal length) in H. rewrite length_app in H. cbn in H. lia.
  - apply (f_equal length) in H. rewrite length_app in H. cbn in H. lia.
  - apply app_inv_head in H. injection H as H. now apply decimal_inj.
Qed.

Lemma first_free_fresh_from (uids : list str) (text : str) (fuel count : nat) :
  (forall j, j < count -> candidate text j ∈ uids) ->
  length uids <= count + fuel ->
  first_free uids text count fuel ∉ uids.
Proof.
  revert count. induction fuel as [|fuel IH]; intros count Hin Hlen; cbn [first_free].
  - intros Hc.
    assert (Hsub : candidate text <$> seq 0 (S count) ⊆+ uids).
    { apply NoDup_submseteq.
      - apply NoDup_fmap_2_strong; [|apply NoDup_seq].
        intros x y _ _. apply candidate_inj.
      - intros x Hx. apply list_elem_of_fmap in Hx as (j & -> & Hj).
        apply elem_of_seq in Hj.
        destruct (decide (j = count)) as [->|]; [exact Hc|apply Hin; lia]. }
    apply submseteq_length in Hsub.
    rewrite length_fmap, length_seq in Hsub. lia.
  - case_bool_decide as Hc; [|exact Hc].
    apply IH; [|lia].
    intros j Hj. destruct (decide (j = count)) as [->|]; [exact Hc|apply Hin; lia].
Qed.

(** The loop of [UniqueSlugify] ends within [len(uids)] rounds on a
    name that is not in [uids]. *)
Lemma first_free_fresh (uids : list str) (text : str) :
  first_free uids text 0 (length uids) ∉ uids.
Proof. apply first_free_fresh_from; [intros j Hj; lia|lia]. Qed.

(** More rounds change nothing: the loop had ended. *)
Lemma first_free_fuel (uids : list str) (text : str) (fuel count : nat) :
  first_free uids text count fuel ∉ uids ->
  forall fuel', fuel <= fuel' -> first_free uids text count fuel' = first_free uids text count fuel.
Proof.
  revert count. induction fuel as [|fuel IH]; intros count H fuel' Hle; cbn [first_free] in *.
  - destruct fuel'; cbn [first_free]; [reflexivity|].
    now rewrite bool_decide_eq_false_2.
  - destruct fuel' as [|fuel']; [lia|]. cbn [first_free].
    case_bool_decide; [|reflexivity]. apply IH; [exact H|lia].
Qed.

Lemma slugify_fresh (E : env) (text : str) (uids uids' : list str) (w w' : world) (r : result str) :
  slugify E text (uids, w) = (r, (uids', w')) ->
  exists name, r = Ok name /\ (name ∉ uids) /\ uids' = uids ++ [name] /\ w' = w.
Proof.
  unfold slugify. intros H. injection H as <- <- <-.
  eexists. split; [reflexivity|]. split; [apply first_free_fresh|]. split; reflexivity.
Qed.

(** ** One image reference *)

Section Reference.
Variable E : env.
Variables (to : str) (m : rmatch) (uids : list str) (w : world).

Lemma repl_unresolved :
  resolve (mgroup m 2) = None ->
  repl_and_download_image E to m (uids, w)
  = (Raise (AttributeError "module 'click' has no attribute 'echos'"),
     (uids, w)).
Proof.
  unfold resolve, repl_and_download_image. intros H.
  destruct (negb (startswith (txt "http://") (mgroup m 2))
            && negb (startswith (txt "https://") (mgroup m 2))); [|done].
  by destruct (startswith (txt "/") (mgroup m 2)).
Qed.

Lemma repl_resolved (url : str) :
  resolve (mgroup m 2) = Some url ->
  repl_and_download_image E to m (uids, w) =
  match requests_get E url with
  | NoReply => (Raise (RequestException url), (uids, after_request w m url))
  | Reply false _ => (Ok (whole m), (uids, after_refusal w m url))
  | Reply true image =>
      match downloaded_images w !! sha256_hexdigest E image with
      | Some image_filename =>
          (Ok (image_markup (mgroup m 1) image_filename),
           (uids, after_request w m url))
      | None =>
          let image_filename := new_filename E uids m url in
          (Ok (image_markup (mgroup m 1) image_filename),
           (uids ++ [first_free uids (slugify_text E (mgroup m 1)) 0
                       (length uids)],
            World (<[sha256_hexdigest E image := image_filename]>
                     (downloaded_images w))
              (files w ++ [Written to image_filename image])
              (console w ++ [announce m url])
              (requested w ++ [url])))
      end
  end.
Proof.
  unfold resolve, repl_and_download_image. intros H.
  assert ((if negb (startswith (txt "http://") (mgroup m 2))
              && negb (startswith (txt "https://") (mgroup m 2))
           then
             if startswith (txt "/") (mgroup m 2)
             then ret (txt "https://zestedesavoir.com" ++ mgroup m 2)
             else (click_echos ;; ret (mgroup m 2))
           else ret (mgroup m 2)) = (ret url : M call_state str)) as ->.
  { destruct (negb (startswith (txt "http://") (mgroup m 2))
              && negb (startswith (txt "https://") (mgroup m 2))).
    - destruct (startswith (txt "/") (mgroup m 2)); [|done]. by injection H as <-.
    - by injection H as <-. }
  unfold bind, ret, click_echo, get, read_downloaded_images.
  cbn [fst snd negb downloaded_images files console requested].
  destruct (requests_get E url) as [[|] image|];
    cbn [fst snd negb downloaded_images files console requested];
    [|reflexivity..].
  destruct (downloaded_images w !! sha256_hexdigest E image); reflexivity.
Qed.

End Reference.

Section Run.
Variable E : env.
Variable to : str.

Lemma grows_refl (w : world) : grows w w.
Proof. by intros h f. Qed.

Lemma grows_trans (w1 w2 w3 : world) : grows w1 w2 -> grows w2 w3 -> grows w1 w3.
Proof. intros H1 H2 h f Hf. by apply H2, H1. Qed.



Lemma count_hash_app (h : str) (fs : list written) (x : written) :
  count_hash E h (fs ++ [x])
  = count_hash E h fs
    + (if decide (sha256_hexdigest E (w_bytes x) = h) then 1 else 0).
Proof.
  unfold count_hash. rewrite filter_app, length_app. f_equal.
  rewrite filter_cons, filter_nil.
  by destruct (decide (sha256_hexdigest E (w_bytes x) = h)).
Qed.

(** One reference: the dictionary grows, keeps counting the files, and
    the text written is the one for the image fetched. *)
Lemma repl_step (m : rmatch) (uids uids' : list str) (w w' : world)
    (r : result str) :
  repl_and_download_image E to m (uids, w) = (r, (uids', w')) ->
  grows w w'
  /\ (registry_counts E w -> registry_counts E w')
  /\ (forall out, r = Ok out -> served E w' m out).
Proof.
  intros Hrun. destruct (resolve (mgroup m 2)) as [url|] eqn:Hres.
  2:{ rewrite repl_unresolved in Hrun by done. injection Hrun as <- <- <-.
      split; [apply grows_refl|]. split; [done|]. by intros out. }
  rewrite (repl_resolved E to m uids w url Hres) in Hrun.
  destruct (requests_get E url) as [[|] image|] eqn:Hget.
  - destruct (downloaded_images w !! sha256_hexdigest E image) as [f|] eqn:Hreg.
    + injection Hrun as <- <- <-.
      split; [by intros h f'|]. split; [done|].
      intros out [= <-] url' image' Hu Hr.
      rewrite Hres in Hu. injection Hu as <-. rewrite Hget in Hr.
      injection Hr as <-. by exists f.
    + cbv zeta in Hrun. injection Hrun as <- <- <-.
      split; [|split].
      * intros h f Hf. cbn [downloaded_images].
        rewrite lookup_insert_ne; [done|]. intros <-. congruence.
      * intros Hinv h. cbn [files downloaded_images].
        rewrite count_hash_app. cbn [w_bytes]. rewrite (Hinv h).
        destruct (decide (sha256_hexdigest E image = h)) as [<-|Hne].
        -- by rewrite Hreg, lookup_insert_eq.
        -- rewrite lookup_insert_ne by done.
           destruct (downloaded_images w !! h); lia.
      * intros out [= <-] url' image' Hu Hr.
        rewrite Hres in Hu. injection Hu as <-. rewrite Hget in Hr.
        injection Hr as <-. eexists. split; [|done].
        cbn [downloaded_images]. apply lookup_insert_eq.
  - injection Hrun as <- <- <-.
    split; [by intros h f'|]. split; [done|].
    intros out _ url' image' Hu Hr. rewrite Hres in Hu. injection Hu as <-.
    congruence.
  - injection Hrun as <- <- <-.
    split; [by intros h f'|]. split; [done|]. by intros out.
Qed.




End Run.

(** ** Runs that end without an exception *)




(** ** What a run does with image references *)

(** C2. A reference whose URL is neither absolute nor rooted: the call
    ends with the [AttributeError] of [click.echos]; nothing is printed,
    requested or written, and no text is returned. *)
Theorem unresolved_reference_raises (E : env) (to : str) (w : world) :
  resolve (txt "img.png") = None
  /\ download_and_replace_markdown_images E (txt "![a](img.png)") to w
     = (Raise (AttributeError "module 'click' has no attribute 'echos'"), w)
  /\ download_and_replace_markdown_images E
       (txt "![a](img.png) ![b](https://zestedesavoir.com/b.png)") to w
     = (Raise (AttributeError "module 'click' has no attribute 'echos'"), w).
Proof. split; [done|]. split; reflexivity. Qed.

(** C3. Two different images with the same alt text, one in the
    introduction and one in the conclusion: each call has a
    [UniqueSlugify] of its own, so both get the same file name, and the
    second file is written under the name of the first. *)
Theorem same_slug_in_two_fragments (slugify_text : str -> str) :
  let E := Env echo_web sample_hexdigest slugify_text in
  let name := slugify_text (txt "Fig") ++ txt ".png" in
  let run := build_markdown_content E two_figures (txt "out") initial_world in
  fst run
  = Ok (image_markup (txt "Fig") name
        ++ [LF; LF; LF] ++ txt "------" ++ [LF; LF; LF]
        ++ image_markup (txt "Fig") name)
  /\ files (snd run)
     = [Written (txt "out") name (txt "http://a.org/1.png");
        Written (txt "out") name (txt "http://b.org/2.png")].
Proof.
  split.
  - vm_compute. fold (@app ascii). rewrite <- !app_assoc. reflexivity.
  - vm_compute. fold (@app ascii). reflexivity.
Qed.



(** C5, as stated, fails for a network error: [requests.get] raises,
    nothing catches the exception, and the call ends with it. *)
Lemma network_error_raises :
  download_and_replace_markdown_images (sample_env silent_web)
    (txt "![Fig](http://a.org/1.png) ![Two](http://a.org/2.png)")
    (txt "out") initial_world
  = (Raise (RequestException (txt "http://a.org/1.png")),
     World ∅ []
       [(false, txt "Downloading and replacing image Fig from http://a.org/1.png…")]
       [txt "http://a.org/1.png"]).
Proof. by vm_compute. Qed.

(** C5, amended. A reference whose request is answered with a status
    that is not a success: the callback returns the text of the
    reference as it was, writes no file, leaves the dictionary as it is,
    prints the warning on the error stream and raises nothing; the
    substitution goes on with the pieces behind it. *)
Theorem refused_fetch_is_skipped (E : env) (to : str) (m : rmatch)
    (ps : list piece) (uids : list str) (w : world) (url content : str) :
  resolve (mgroup m 2) = Some url ->
  requests_get E url = Reply false content ->
  repl_and_download_image E to m (uids, w)
  = (Ok (whole m), (uids, after_refusal w m url))
  /\ downloaded_images (after_refusal w m url) = downloaded_images w
  /\ files (after_refusal w m url) = files w
  /\ console (after_refusal w m url)
     = console w ++ [announce m url;
                     (true, txt "Unable to download image, skipping")]
  /\ sub_pieces (repl_and_download_image E to) (Hit m :: ps) (uids, w) =
     match sub_pieces (repl_and_download_image E to) ps
             (uids, after_refusal w m url) with
     | (Ok outs, st) => (Ok (whole m :: outs), st)
     | (Raise e, st) => (Raise e, st)
     end.
Proof.
  intros Hu Hget.
  assert (repl_and_download_image E to m (uids, w)
          = (Ok (whole m), (uids, after_refusal w m url))) as Hrepl.
  { by rewrite (repl_resolved E to m uids w url Hu), Hget. }
  split; [done|]. split; [done|]. split; [done|].
  split; [by cbn [after_refusal console]; rewrite <- app_assoc|].
  cbn [sub_pieces]. unfold bind at 1. rewrite Hrepl. unfold bind.
  by destruct (sub_pieces (repl_and_download_image E to) ps
                 (uids, after_refusal w m url)) as [[outs|e] st].
Qed.

(** A refused image in front of one that is fetched. *)
Lemma refused_fetch_is_skipped_sample :
  let web := fun url =>
    if bool_decide (url = txt "http://a.org/1.png")
    then Reply false (txt "Not Found") else Reply true (txt "bytes") in
  let E := sample_env web in
  let m := Match (txt "![Fig](http://a.org/1.png)")
             [(2, txt "http://a.org/1.png"); (1, txt "Fig")] in
  (resolve (mgroup m 2) = Some (txt "http://a.org/1.png")
   /\ requests_get E (txt "http://a.org/1.png") = Reply false (txt "Not Found"))
  /\ repl_and_download_image E (txt "out") m ([], initial_world)
     = (Ok (txt "![Fig](http://a.org/1.png)"),
        ([], after_refusal initial_world m (txt "http://a.org/1.png")))
  /\ download_and_replace_markdown_images E
       (txt "![Fig](http://a.org/1.png) ![Two](http://a.org/2.png)")
       (txt "out") initial_world
     = (Ok (txt "![Fig](http://a.org/1.png) ![Two](two.png)"),
        World (<[txt "bytes" := txt "two.png"]> ∅)
          [Written (txt "out") (txt "two.png") (txt "bytes")]
          [announce m (txt "http://a.org/1.png");
           (true, txt "Unable to download image, skipping");
           (false, txt "Downloading and replacing image Two from http://a.org/2.png…")]
          [txt "http://a.org/1.png"; txt "http://a.org/2.png"]).
Proof.
  intros web E m. split; [by split|].
  split.
  - exact (proj1 (refused_fetch_is_skipped E (txt "out") m [] [] initial_world
                    (txt "http://a.org/1.png") (txt "Not Found")
                    eq_refl eq_refl)).
  - by vm_compute.
Defined.

(** ** The extension of a file name *)




Lemma split_on_free (c : ascii) (b : str) : c ∉ b -> split_on c b = [b].
Proof.
  induction b as [|d b IH]; [done|]. intros [Hd Hb]%not_elem_of_cons.
  cbn [split_on]. destruct (Ascii.eqb_spec d c); [congruence|].
  by rewrite IH.
Qed.

Lemma last_field_free (c : ascii) (b : str) : c ∉ b -> last_field c b = b.
Proof. intros Hb. unfold last_field. by rewrite split_on_free. Qed.







(** ** The run of [zds_to_grav] and the calls for its fragments *)

Lemma and_then_ext (x : option exn * world)
    (k k' : world -> option exn * world) :
  (forall w, k w = k' w) -> and_then x k = and_then x k'.
Proof. intros H. destruct x as [[e|] w]; [done|apply H]. Qed.

Lemma effect_bind {A B : Type} (c : M world A) (k : A -> M world B)
    (k' : world -> option exn * world) (w : world) :
  (forall a w1, effect (k a w1) = k' w1) ->
  effect (bind c k w) = and_then (effect (c w)) k'.
Proof.
  intros Hk. unfold bind. destruct (c w) as [[a|e] w1]; [apply Hk|done].
Qed.

Lemma effect_download (E : env) (fr to : str) (w : world) :
  effect (download_and_replace_markdown_images E fr to w)
  = effect (localize_pieces E fr to w).
Proof.
  unfold download_and_replace_markdown_images, bind, ret.
  by destruct (localize_pieces E fr to w) as [[outs|e] w1].
Qed.

Lemma effect_fragments_cons (E : env) (to fr : str) (frs : list str)
    (w : world) :
  effect (localize_fragments E (fr :: frs) to w)
  = and_then (effect (localize_pieces E fr to w))
      (fun w1 => effect (localize_fragments E frs to w1)).
Proof.
  cbn [localize_fragments]. apply effect_bind. intros outs w1.
  unfold bind, ret. by destruct (localize_fragments E frs to w1) as [[o|e] w2].
Qed.

Lemma effect_fragments_app (E : env) (to : str) (xs ys : list str) (w : world) :
  effect (localize_fragments E (xs ++ ys) to w)
  = and_then (effect (localize_fragments E xs to w))
      (fun w1 => effect (localize_fragments E ys to w1)).
Proof.
  revert w. induction xs as [|x xs IH]; intros w; [done|].
  cbn [app]. rewrite !effect_fragments_cons.
  destruct (effect (localize_pieces E x to w)) as [[e|] w1]; [done|].
  cbn [and_then]. apply IH.
Qed.

Lemma effect_children (E : env) (to : str) (cs : list child)
    (markdown_content : str) (w : world) :
  effect (add_children E cs to markdown_content w)
  = effect (localize_fragments E
              (map (fun c => shift_markdown_headers (c_text c))
                 (filter is_extract cs)) to w).
Proof.
  revert markdown_content w.
  induction cs as [|c cs IH]; intros markdown_content w; [done|].
  cbn [add_children]. rewrite filter_cons.
  destruct (decide (is_extract c)) as [Hc|Hc].
  - apply Is_true_true in Hc. rewrite Hc. cbn [negb map].
    rewrite effect_fragments_cons, <- effect_download.
    apply effect_bind. intros text w1. apply IH.
  - apply Is_true_false in Hc. rewrite Hc. apply IH.
Qed.

(** What [build_markdown_content] does to the world, and whether it
    raises, is what the calls for its fragments do, one after the
    other. *)
Theorem build_markdown_content_fragments (E : env) (a : archive) (to : str)
    (w : world) :
  effect (build_markdown_content E a to w)
  = effect (localize_fragments E (fragments a) to w).
Proof.
  unfold build_markdown_content, fragments.
  set (I := match introduction a with Some t => [t] | None => [] end).
  set (C := match children a with
            | Some cs =>
                map (fun c => shift_markdown_headers (c_text c))
                  (filter is_extract cs)
            | None => []
            end).
  set (K := match conclusion a with Some t => [t] | None => [] end).
  rewrite effect_fragments_app.
  rewrite (effect_bind _ _
             (fun w1 => effect (localize_fragments E (C ++ K) to w1))).
  - f_equal. unfold I. destruct (introduction a) as [text|]; [|done].
    rewrite effect_fragments_cons, <- effect_download.
    cbn [localize_fragments].
    by destruct (effect (download_and_replace_markdown_images E text to w))
      as [[e|] w1].
  - intros mc w1. rewrite effect_fragments_app.
    rewrite (effect_bind _ _
               (fun w2 => effect (localize_fragments E K to w2))).
    + f_equal. unfold C.
      destruct (children a) as [cs|]; [apply effect_children|done].
    + intros mc' w2. unfold K.
      destruct (conclusion a) as [text|]; [|done].
      rewrite effect_fragments_cons, <- effect_download.
      cbn [localize_fragments]. unfold bind, ret.
      by destruct (download_and_replace_markdown_images E text to w2)
        as [[o|e] w3].
Qed.

(** * Part IV: further properties *)

(** ** Texts the passes leave alone *)

Lemma walk_none (lm : list str -> option (nat * list str)) (ls : list str)
    (avail : bool) :
  (forall i, lm (drop i ls) = None) -> walk lm avail 0 ls = ls.
Proof.
  revert avail. induction ls as [|l ls IH]; intros avail H; [done|].
  cbn [walk]. rewrite (H 0 : lm (l :: ls) = None).
  replace (if avail then None else None) with (@None (nat * list str))
    by (by destruct avail).
  f_equal. apply IH. intros i. apply (H (S i)).
Qed.

Lemma calm_atx (ls : list str) (k : nat) :
  calm ls = true -> 1 <= k <= 5 ->
  Forall (fun l => atx_title (marker k) l = None) ls.
Proof.
  intros H Hk. induction ls as [|l ls IH]; [done|].
  cbn [calm] in H. apply andb_true_iff in H as [H Hc].
  apply andb_true_iff in H as [Hl _].
  constructor; [by apply not_atx_header_title|by apply IH].
Qed.

Lemma calm_setext (d : ascii) (f : str -> nat -> str -> list str)
    (ls : list str) :
  (d = dash \/ d = equal) -> calm ls = true ->
  forall i,
    match drop i ls with
    | (c :: t) :: u :: rest =>
        match underline d u (more rest) with
        | Some (n, r) => Some (2, f (c :: t) n r)
        | None => None
        end
    | _ => None
    end = None.
Proof.
  intros Hd. induction ls as [|l ls IH]; intros H i; [by destruct i|].
  cbn [calm] in H. apply andb_true_iff in H as [H Hc].
  apply andb_true_iff in H as [_ Hu].
  destruct i as [|i]; [|by apply IH].
  cbn [drop]. destruct l as [|c t]; [done|]. destruct ls as [|u rest]; [done|].
  apply andb_true_iff in Hu as [H1 H2].
  apply negb_true_iff, bool_decide_eq_false in H1, H2.
  destruct Hd as [-> | ->].
  - destruct (underline dash u (more rest)) as [[n r]|]; [|done].
    by destruct H1.
  - destruct (underline equal u (more rest)) as [[n r]|]; [|done].
    by destruct H2.
Qed.

(** X2. A text in which no line is an ATX header of the levels 1 to 5
    and no line that is not empty stands over an underline is returned
    as it is. *)
Theorem shift_calm_text (s : str) :
  calm (lines s) = true -> shift_markdown_headers s = s.
Proof.
  intros H. rewrite <- (join_lines s).
  rewrite shift_markdown_headers_lines by apply lines_lf_free. f_equal.
  unfold shift_lines, atx_lines.
  change (txt "##### ") with (marker 5).
  change (txt "#### ") with (marker 4).
  change (txt "### ") with (marker 3).
  change (txt "## ") with (marker 2).
  change (txt "# ") with (marker 1).
  rewrite (walk_without_header (marker 5)) by (apply calm_atx; [done|lia]).
  rewrite (walk_without_header (marker 4)) by (apply calm_atx; [done|lia]).
  rewrite (walk_without_header (marker 3)) by (apply calm_atx; [done|lia]).
  rewrite (walk_without_header (marker 2)) by (apply calm_atx; [done|lia]).
  rewrite (walk_without_header (marker 1)) by (apply calm_atx; [done|lia]).
  rewrite (walk_none s2_lm).
  2:{ apply (calm_setext dash (fun t n r => [txt "### " ++ t ++ r])); [by left|done]. }
  apply (walk_none s1_lm).
  apply (calm_setext equal (fun t n r => [t; repeat dash n ++ r])); [by right|done].
Qed.

Lemma shift_calm_text_sample :
  let s := txt "#hashtag" ++ [LF] ++ txt "####### seven" ++ [LF] ++ [LF]
           ++ txt "------" ++ [LF] ++ txt " # indented" ++ [LF] ++ txt "="
           ++ [LF] ++ txt "# " in
  calm (lines s) = true /\ shift_markdown_headers s = s.
Proof.
  intros s. split; [by vm_compute|].
  apply shift_calm_text. by vm_compute.
Defined.

(** ** Setext headers of level 2, parts of a text *)

Lemma shift_setext_2_alone (t : str) (n : nat) (e : str) :
  t <> [] -> lf_free t -> not_atx_header t = true -> 2 <= n ->
  (e = [] \/ e = [LF]) ->
  shift_markdown_headers (setext t dash n ++ e) = txt "### " ++ t ++ e.
Proof.
  intros Hne Hlf Ht Hn He.
  assert (exists el, (el = [] \/ el = [[]]) /\ e = sep el ++ join el) as (el & Hel & ->).
  { destruct He as [-> | ->]; [exists []|exists [[]]]; (split; [tauto|done]). }
  assert (Forall lf_free el) as Hlfe.
  { destruct Hel as [-> | ->]; [done|]. constructor; [apply lf_free_nil|done]. }
  destruct t as [|c t]; [done|].
  rewrite <- setext_join.
  rewrite shift_markdown_headers_lines.
  2:{ constructor; [done|]. constructor; [by apply lf_free_repeat|done]. }
  unfold shift_lines. rewrite (atx_passes_setext _ dash n el) by done.
  cbn [app walk]. unfold s2_lm at 1. rewrite underline_repeat by done.
  cbn [pred app].
  destruct Hel as [-> | ->]; cbn [walk app]; unfold s1_lm; cbn [join sep];
    by rewrite ?app_nil_r.
Qed.

(** X3. A line that is not empty and no ATX header, over a line of two
    or more dashes, becomes an ATX header of level 3 and the underline
    goes: when the two lines are the whole text, and when blank lines
    set them off from the rest. *)
Theorem shift_setext_level_2 (t : str) (n : nat) (e : str) :
  t <> [] -> lf_free t -> not_atx_header t = true -> 2 <= n ->
  (e = [] \/ e = [LF]) ->
  shift_markdown_headers (setext t dash n ++ e) = txt "### " ++ t ++ e
  /\ (forall X Y,
        shift_markdown_headers
          (X ++ [LF; LF] ++ setext t dash n ++ [LF; LF] ++ Y)
        = shift_markdown_headers (X ++ [LF]) ++ [LF]
          ++ txt "### " ++ t ++ [LF; LF] ++ shift_markdown_headers Y).
Proof.
  intros Hne Hlf Ht Hn He.
  split; [by apply shift_setext_2_alone|].
  intros X Y. rewrite !shift_markdown_headers_blank_line.
  rewrite shift_setext_2_alone by (done || by right).
  by rewrite <- !app_assoc.
Qed.

(** The third example of the docstring, its second header. *)
Lemma shift_setext_level_2_docstring :
  (txt "Header 2" <> [] /\ lf_free (txt "Header 2")
   /\ not_atx_header (txt "Header 2") = true /\ 2 <= 8)
  /\ shift_markdown_headers (setext (txt "Header 2") dash 8 ++ [LF])
     = txt "### Header 2" ++ [LF].
Proof.
  split.
  - split; [done|]. split; [by apply (bool_decide_unpack _)|]. split; [done|lia].
  - refine (proj1 (shift_setext_level_2 (txt "Header 2") 8 [LF] _ _ _ _ _));
      [done|by apply (bool_decide_unpack _)|done|lia|by right].
Defined.

(** X5. Parts of a text that blank lines separate are shifted each on
    its own. *)
Theorem shift_blocks (bs : list str) (last : str) :
  shift_markdown_headers (foldr (fun b r => b ++ [LF; LF] ++ r) last bs)
  = foldr (fun b r => shift_markdown_headers (b ++ [LF]) ++ [LF] ++ r)
      (shift_markdown_headers last) bs.
Proof.
  induction bs as [|b bs IH]; [done|]. cbn [foldr].
  by rewrite shift_markdown_headers_blank_line, IH.
Qed.

(** ** Line ends with a carriage return *)

Lemma run_len_repeat_app (d c : ascii) (n : nat) (rest : str) :
  c <> d -> run_len (Ch d) (repeat d n ++ c :: rest) = n.
Proof.
  intros Hc. induction n as [|n IH]; cbn [repeat app run_len accepts].
  - by destruct (Ascii.eqb_spec c d).
  - by rewrite Ascii.eqb_refl, IH.
Qed.

Lemma underline_repeat_cr (d : ascii) (n : nat) (f : bool) :
  d <> CR -> 2 <= n ->
  underline d (repeat d n ++ [CR]) f = if f then Some (n, [CR]) else None.
Proof.
  intros Hd Hn. unfold underline. rewrite run_len_repeat_app by done.
  replace (Nat.leb 2 n) with true by (symmetry; by apply Nat.leb_le).
  rewrite drop_app_length' by (by rewrite repeat_length).
  by destruct f.
Qed.

Lemma underline_other_cr (d d' : ascii) (n : nat) (f : bool) :
  d <> d' -> d <> CR -> underline d (repeat d' n ++ [CR]) f = None.
Proof.
  intros Hd Hcr. unfold underline.
  assert (run_len (Ch d) (repeat d' n ++ [CR]) = 0) as ->; [|done].
  destruct n; cbn [repeat app run_len accepts].
  - destruct (Ascii.eqb_spec CR d); [congruence|done].
  - destruct (Ascii.eqb_spec d' d); [congruence|done].
Qed.

Lemma atx_title_repeat_cr (k : nat) (d : ascii) (n : nat) :
  d <> hash -> 1 <= k -> atx_title (marker k) (repeat d n ++ [CR]) = None.
Proof.
  intros Hd Hk. unfold atx_title.
  destruct k; [lia|].
  change (marker (S k)) with (hash :: marker k).
  destruct n; [done|]. cbn [repeat app strip_prefix].
  destruct (Ascii.eqb_spec d hash); [congruence|done].
Qed.

Lemma atx_passes_crlf (t : str) (d : ascii) (n : nat) (e : list str) :
  not_atx_header (t ++ [CR]) = true -> d <> hash -> (e = [] \/ e = [[]]) ->
  let ls := [t ++ [CR]; repeat d n ++ [CR]] ++ e in
  atx_lines (txt "# ") (txt "## ")
    (atx_lines (txt "## ") (txt "### ")
       (atx_lines (txt "### ") (txt "#### ")
          (atx_lines (txt "#### ") (txt "##### ")
             (atx_lines (txt "##### ") (txt "###### ") ls)))) = ls.
Proof.
  intros Ht Hd He ls.
  assert (forall k, 1 <= k <= 5 ->
            Forall (fun l => atx_title (marker k) l = None) ls) as Hno.
  { intros k Hk. unfold ls.
    constructor; [by apply not_atx_header_title|].
    constructor; [apply atx_title_repeat_cr; [done|lia]|].
    destruct He as [-> | ->]; [done|].
    constructor; [|done]. destruct k; [lia|done]. }
  unfold atx_lines.
  change (txt "##### ") with (marker 5).
  change (txt "#### ") with (marker 4).
  change (txt "### ") with (marker 3).
  change (txt "## ") with (marker 2).
  change (txt "# ") with (marker 1).
  rewrite (walk_without_header (marker 5)) by (apply Hno; lia).
  rewrite (walk_without_header (marker 4)) by (apply Hno; lia).
  rewrite (walk_without_header (marker 3)) by (apply Hno; lia).
  rewrite (walk_without_header (marker 2)) by (apply Hno; lia).
  by rewrite (walk_without_header (marker 1)) by (apply Hno; lia).
Qed.

Lemma crlf_lines (t u : str) :
  t ++ [CR; LF] ++ u ++ [CR; LF] = join ([t ++ [CR]; u ++ [CR]] ++ [[]])
  /\ t ++ [CR; LF] ++ u ++ [CR] = join ([t ++ [CR]; u ++ [CR]] ++ []).
Proof.
  cbn [app]. rewrite !join_cons. cbn [sep join app]. rewrite !app_nil_r.
  split; by rewrite <- !app_assoc.
Qed.

(** X4. Line ends of carriage return and line feed. A header of level
    1 keeps them under its new underline; a header of level 2 becomes
    an ATX header that ends in two carriage returns, the one of its
    own line and the one of the underline; and an underline whose
    carriage return ends the text is none. *)
Theorem shift_setext_crlf (t : str) (n : nat) :
  t <> [] -> lf_free t -> not_atx_header (t ++ [CR]) = true -> 2 <= n ->
  shift_markdown_headers (t ++ [CR; LF] ++ repeat equal n ++ [CR; LF])
  = t ++ [CR; LF] ++ repeat dash n ++ [CR; LF]
  /\ shift_markdown_headers (t ++ [CR; LF] ++ repeat dash n ++ [CR; LF])
     = txt "### " ++ t ++ [CR; CR; LF]
  /\ shift_markdown_headers (t ++ [CR; LF] ++ repeat equal n ++ [CR])
     = t ++ [CR; LF] ++ repeat equal n ++ [CR].
Proof.
  intros Hne Hlf Ht Hn.
  assert (lf_free (t ++ [CR])) as Hlf'.
  { apply lf_free_app. split; [done|]. by apply (bool_decide_unpack _). }
  assert (forall d, d <> LF -> lf_free (repeat d n ++ [CR])) as Hlfu.
  { intros d Hd. apply lf_free_app. split; [by apply lf_free_repeat|].
    by apply (bool_decide_unpack _). }
  assert (Hc : exists c t', t ++ [CR] = c :: t').
  { destruct t as [|c t]; [done|]. by exists c, (t ++ [CR]). }
  destruct Hc as (c & t' & Hc).
  split; [|split].
  - rewrite (proj1 (crlf_lines t (repeat equal n))),
            (proj1 (crlf_lines t (repeat dash n))).
    rewrite shift_markdown_headers_lines.
    2:{ repeat constructor; [done|by apply Hlfu|apply lf_free_nil]. }
    unfold shift_lines.
    rewrite (atx_passes_crlf t equal n [[]]) by (done || by right).
    cbn [app walk]. rewrite Hc. unfold s2_lm at 1.
    rewrite (underline_other_cr dash equal) by done.
    unfold s2_lm at 1.
    replace (match repeat equal n ++ [CR] with
             | [] => None
             | c0 :: t0 => _ end) with (@None (nat * list str)).
    2:{ destruct (repeat equal n ++ [CR]); [done|]. by unfold underline. }
    unfold s2_lm at 1. cbn [walk].
    unfold s1_lm at 1. cbn [more].
    rewrite (underline_repeat_cr equal n true) by done. cbn [pred app walk].
    done.
  - rewrite (proj1 (crlf_lines t (repeat dash n))).
    rewrite shift_markdown_headers_lines.
    2:{ repeat constructor; [done|by apply Hlfu|apply lf_free_nil]. }
    unfold shift_lines.
    rewrite (atx_passes_crlf t dash n [[]]) by (done || by right).
    cbn [app walk]. rewrite Hc. unfold s2_lm at 1. cbn [more].
    rewrite (underline_repeat_cr dash n true) by done. cbn [pred walk].
    rewrite <- Hc. cbn [app]. rewrite (walk_none s1_lm).
    2:{ intros [|[|[|i]]]; cbn [drop]; [|done..].
        by destruct (txt "### " ++ (t ++ [CR]) ++ [CR]). }
    rewrite !join_cons. cbn [sep join app].
    by rewrite <- !app_assoc.
  - rewrite (proj2 (crlf_lines t (repeat equal n))).
    rewrite shift_markdown_headers_lines.
    2:{ repeat constructor; [done|by apply Hlfu]. }
    unfold shift_lines.
    rewrite (atx_passes_crlf t equal n []) by (done || by left).
    cbn [app walk]. rewrite Hc. unfold s2_lm at 1.
    rewrite (underline_other_cr dash equal) by done.
    unfold s2_lm at 1.
    replace (match repeat equal n ++ [CR] with
             | [] => None
             | c0 :: t0 => _ end) with (@None (nat * list str))
      by (by destruct (repeat equal n ++ [CR])).
    cbn [walk]. unfold s1_lm at 1. cbn [more].
    rewrite (underline_repeat_cr equal n false) by done.
    unfold s1_lm at 1.
    replace (match repeat equal n ++ [CR] with
             | [] => None
             | c0 :: t0 => _ end) with (@None (nat * list str))
      by (by destruct (repeat equal n ++ [CR])).
    done.
Qed.

Lemma shift_setext_crlf_sample :
  (txt "Title" <> [] /\ lf_free (txt "Title")
   /\ not_atx_header (txt "Title" ++ [CR]) = true /\ 2 <= 3)
  /\ shift_markdown_headers (txt "Title" ++ [CR; LF] ++ txt "---" ++ [CR; LF])
     = txt "### Title" ++ [CR; CR; LF].
Proof.
  split.
  - split; [done|]. split; [by apply (bool_decide_unpack _)|]. split; [done|lia].
  - refine (proj1 (proj2 (shift_setext_crlf (txt "Title") 3 _ _ _ _)));
      [done|by apply (bool_decide_unpack _)|done|lia].
Defined.

(** ** What holds all through a run *)

Section Invariant.
Variable E : env.
Variable to : str.
Variable P : world -> Prop.
Hypothesis step : forall m uids w r uids' w',
  repl_and_download_image E to m (uids, w) = (r, (uids', w')) -> P w -> P w'.

Lemma sub_pieces_invariant (ps : list piece) :
  forall uids w r uids' w',
    sub_pieces (repl_and_download_image E to) ps (uids, w) = (r, (uids', w')) ->
    P w -> P w'.
Proof.
  induction ps as [|[c|m] ps IH]; intros uids w r uids' w' Hrun Hw;
    cbn [sub_pieces] in Hrun; unfold bind, ret in Hrun.
  - by injection Hrun as <- <- <-.
  - destruct (sub_pieces (repl_and_download_image E to) ps (uids, w)) as [[outs|e] [u1 w1]] eqn:Hs;
      injection Hrun as <- <- <-; by eapply IH.
  - destruct (repl_and_download_image E to m (uids, w)) as [[out|e] [u1 w1]] eqn:Hr.
    + pose proof (step _ _ _ _ _ _ Hr Hw) as Hw1.
      destruct (sub_pieces (repl_and_download_image E to) ps (u1, w1)) as [[outs|e] [u2 w2]] eqn:Hs;
        injection Hrun as <- <- <-; by eapply IH.
    + injection Hrun as <- <- <-. by eapply step.
Qed.

Lemma localize_pieces_invariant (fr : str) (w w' : world) (r : result (list str)) :
  localize_pieces E fr to w = (r, w') -> P w -> P w'.
Proof.
  unfold localize_pieces.
  destruct (sub_pieces (repl_and_download_image E to) _ ([], w)) as [r' [uids' w1]] eqn:Hs.
  intros [= <- <-]. by eapply sub_pieces_invariant.
Qed.

Lemma download_invariant (s : str) (w : world) :
  P w -> P (snd (download_and_replace_markdown_images E s to w)).
Proof.
  unfold download_and_replace_markdown_images, bind, ret.
  destruct (localize_pieces E s to w) as [[outs|e] w1] eqn:Hs; cbn [snd];
    by eapply localize_pieces_invariant.
Qed.

Lemma localize_fragments_invariant (frs : list str) :
  forall w, P w -> P (snd (localize_fragments E frs to w)).
Proof.
  induction frs as [|fr frs IH]; intros w Hw; [done|].
  cbn [localize_fragments]. unfold bind, ret.
  destruct (localize_pieces E fr to w) as [[outs|e] w1] eqn:Hs.
  - pose proof (localize_pieces_invariant _ _ _ _ Hs Hw) as Hw1.
    specialize (IH w1 Hw1).
    by destruct (localize_fragments E frs to w1) as [[outss|e] w2].
  - cbn [snd]. by eapply localize_pieces_invariant.
Qed.

Lemma build_invariant (a : archive) (w : world) :
  P w -> P (snd (build_markdown_content E a to w)).
Proof.
  intros Hw.
  assert (snd (build_markdown_content E a to w)
          = snd (localize_fragments E (fragments a) to w)) as ->.
  { pose proof (build_markdown_content_fragments E a to w) as H.
    destruct (build_markdown_content E a to w) as [[x|e] w1],
             (localize_fragments E (fragments a) to w) as [[y|e'] w2];
      by injection H. }
  by apply localize_fragments_invariant.
Qed.

End Invariant.

(** What one reference does to the world. *)
Lemma repl_world (E : env) (to : str) (m : rmatch) (uids uids' : list str)
    (w w' : world) (r : result str) :
  repl_and_download_image E to m (uids, w) = (r, (uids', w')) ->
  w' = w
  \/ exists url, resolve (mgroup m 2) = Some url
     /\ (w' = after_request w m url \/ w' = after_refusal w m url
         \/ exists image,
              requests_get E url = Reply true image
              /\ downloaded_images w !! sha256_hexdigest E image = None
              /\ w' = World (<[sha256_hexdigest E image := new_filename E uids m url]>
                               (downloaded_images w))
                        (files w ++ [Written to (new_filename E uids m url) image])
                        (console w ++ [announce m url])
                        (requested w ++ [url])).
Proof.
  intros Hrun. destruct (resolve (mgroup m 2)) as [url|] eqn:Hres.
  2:{ rewrite repl_unresolved in Hrun by done. injection Hrun as <- <- <-. by left. }
  right. exists url. split; [done|].
  rewrite (repl_resolved E to m uids w url Hres) in Hrun.
  destruct (requests_get E url) as [[|] image|] eqn:Hget.
  - destruct (downloaded_images w !! sha256_hexdigest E image) as [f|] eqn:Hreg.
    + injection Hrun as <- <- <-. by left.
    + cbv zeta in Hrun. injection Hrun as <- <- <-. right. right.
      by exists image.
  - injection Hrun as <- <- <-. right. by left.
  - injection Hrun as <- <- <-. by left.
Qed.

Lemma scan_hits (re : regex) (s : str) :
  forall n bos skip, hits (scan re (Some n) bos skip s) <= n.
Proof.
  induction s as [|c s IH]; intros n bos skip.
  - destruct skip; [|cbn; lia]. rewrite scan_zero.
    destruct n as [|n]; cbn [exhausted]; [cbn; lia|].
    destruct (try_match re bos []); cbn [hits]; lia.
  - destruct skip as [|k]; [|apply IH]. rewrite scan_zero.
    destruct n as [|n]; cbn [exhausted].
    + cbn [hits]. apply (IH 0).
    + destruct (try_match re bos (c :: s)) as [m|].
      * cbn [spend pred hits].
        destruct (length (whole m)) as [|k].
        -- cbn [hits]. specialize (IH n false 0). lia.
        -- specialize (IH n false k). lia.
      * cbn [hits]. apply (IH (S n)).
Qed.

Lemma sub_pieces_counts (E : env) (to : str) (ps : list piece) :
  forall uids w r uids' w',
    sub_pieces (repl_and_download_image E to) ps (uids, w) = (r, (uids', w')) ->
    length (requested w') <= length (requested w) + hits ps
    /\ length (files w') <= length (files w) + hits ps.
Proof.
  induction ps as [|[c|m] ps IH]; intros uids w r uids' w' Hrun;
    cbn [sub_pieces] in Hrun; unfold bind, ret in Hrun; cbn [hits].
  - injection Hrun as <- <- <-. lia.
  - destruct (sub_pieces (repl_and_download_image E to) ps (uids, w)) as [[outs|e] [u1 w1]] eqn:Hs;
      injection Hrun as <- <- <-; by eapply IH.
  - destruct (repl_and_download_image E to m (uids, w)) as [r1 [u1 w1]] eqn:Hr.
    assert (length (requested w1) <= length (requested w) + 1
            /\ length (files w1) <= length (files w) + 1) as [H1 H2].
    { apply repl_world in Hr as [->|(url & _ & [->|[->|(image & _ & _ & ->)]])];
        cbn [after_request after_refusal requested files];
        rewrite ?length_app; cbn [length]; lia. }
    destruct r1 as [out|e].
    + destruct (sub_pieces (repl_and_download_image E to) ps (u1, w1)) as [[outs|e] [u2 w2]] eqn:Hs;
        injection Hrun as <- <- <-; apply IH in Hs; lia.
    + injection Hrun as <- <- <-. lia.
Qed.

(** X10. Line 386 passes [re.MULTILINE], which is 8, where
    [pattern.sub] takes [count]: one call requests at most eight
    images and writes at most eight files, however many references the
    text has. *)
Theorem at_most_eight_images (E : env) (s to : str) (w : world) :
  let w' := snd (download_and_replace_markdown_images E s to w) in
  length (requested w') <= length (requested w) + 8
  /\ length (files w') <= length (files w) + 8.
Proof.
  intros w'. unfold w', download_and_replace_markdown_images, bind, ret, localize_pieces.
  destruct (sub_pieces (repl_and_download_image E to) _ ([], w)) as [r [uids' w1]] eqn:Hs.
  apply sub_pieces_counts in Hs.
  pose proof (scan_hits re_image s 8 true 0) as Hh.
  change (scan re_image (Some 8) true 0 s) with (pieces re_image re_MULTILINE s) in Hh.
  destruct r as [outs|e]; cbn [snd]; lia.
Qed.

Lemma resolve_absolute (u url : str) : resolve u = Some url -> absolute url = true.
Proof.
  unfold resolve, absolute.
  destruct (startswith (txt "http://") u) eqn:H1; cbn [negb andb].
  - intros [= <-]. by rewrite H1.
  - destruct (startswith (txt "https://") u) eqn:H2; cbn [negb].
    + intros [= <-]. by rewrite H2, orb_true_r.
    + destruct (startswith (txt "/") u); [|done]. intros [= <-]. done.
Qed.

(** X12. Whatever the references of an archive are and however the web
    answers, every URL the run requests starts with [http://] or
    [https://]. *)
Theorem requests_are_absolute (E : env) (a : archive) (to : str) :
  Forall (fun url => absolute url = true)
    (requested (snd (build_markdown_content E a to initial_world))).
Proof.
  apply (build_invariant E to
           (fun w => Forall (fun url => absolute url = true) (requested w)));
    [|by constructor].
  intros m uids w r uids' w' Hr Hw.
  apply repl_world in Hr as [->|(url & Hu & [->|[->|(image & _ & _ & ->)]])];
    [done|..]; cbn [after_request after_refusal requested];
    (apply Forall_app; split; [done|]);
    (constructor; [by apply (resolve_absolute (mgroup m 2))|done]).
Qed.


(** X14. An entry of the dictionary is never removed or changed: the
    name recorded for a hash before a run is the name recorded for it
    afterwards. *)
Theorem registry_is_kept (E : env) (a : archive) (to : str) (w : world) :
  grows w (snd (build_markdown_content E a to w)).
Proof.
  apply (build_invariant E to (grows w)); [|apply grows_refl].
  intros m uids w1 r uids' w' Hr Hw.
  destruct (repl_step E to m uids uids' w1 w' r Hr) as (Hg & _ & _).
  by eapply grows_trans.
Qed.

(** ** The shape of an image reference *)

Lemma image_at_markup (a u rest : str) :
  a <> [] -> "]" ∉ a -> u <> [] -> ")" ∉ u ->
  image_at (image_markup a u ++ rest) = Some (a, u, rest).
Proof.
  intros Ha Ha' Hu Hu'. unfold image_at, image_markup.
  rewrite <- !app_assoc.
  change (txt "![" ++ a ++ txt "](" ++ u ++ txt ")" ++ rest)
    with (txt "![" ++ (a ++ "]" :: ("(" :: u ++ ")" :: rest))).
  rewrite strip_prefix_app. cbv zeta. rewrite run_len_not by done.
  destruct (length a) as [|n] eqn:El; [by destruct a|].
  rewrite <- El, drop_app_length.
  change ("]" :: "(" :: u ++ ")" :: rest) with (txt "](" ++ (u ++ ")" :: rest)).
  rewrite strip_prefix_app. rewrite run_len_not by done.
  destruct (length u) as [|k] eqn:Eu; [by destruct u|].
  rewrite <- Eu, drop_app_length, !take_app_length. done.
Qed.

Lemma run_len_take (c : ascii) (s : str) :
  c ∉ take (run_len (NotCh c) s) s.
Proof.
  induction s as [|d s IH]; [apply not_elem_of_nil|]. cbn [run_len accepts].
  destruct (Ascii.eqb_spec d c) as [->|Hd]; cbn [negb take].
  - apply not_elem_of_nil.
  - apply not_elem_of_cons. split; [congruence|done].
Qed.

Lemma image_at_shape (s a u rest : str) :
  image_at s = Some (a, u, rest) ->
  s = image_markup a u ++ rest
  /\ a <> [] /\ ("]" ∉ a) /\ u <> [] /\ (")" ∉ u).
Proof.
  unfold image_at.
  destruct (strip_prefix (txt "![") s) as [s1|] eqn:H1; [|done].
  apply strip_prefix_Some in H1 as ->. cbv zeta.
  destruct (run_len (NotCh "]") s1) as [|n] eqn:En; [done|].
  destruct (strip_prefix (txt "](") (drop (S n) s1)) as [s2|] eqn:H2; [|done].
  apply strip_prefix_Some in H2.
  destruct (run_len (NotCh ")") s2) as [|k] eqn:Ek; [done|].
  destruct (drop (S k) s2) as [|c rest'] eqn:H3; [done|].
  intros [= <- <- <-].
  assert (c = ")") as ->.
  { rewrite <- Ek in H3. apply run_len_stop in H3. cbn [accepts] in H3.
    by destruct (Ascii.eqb_spec c ")"). }
  split; [|split; [|split; [|split] ] ].
  - unfold image_markup. rewrite <- !app_assoc. f_equal.
    rewrite <- (take_drop (S n) s1) at 1. f_equal. rewrite H2.
    change (txt "](" ++ s2) with ("]" :: "(" :: s2).
    change (txt "](" ++ take (S k) s2 ++ txt ")" ++ rest')
      with ("]" :: "(" :: take (S k) s2 ++ ")" :: rest').
    do 2 f_equal. rewrite <- (take_drop (S k) s2) at 1. by rewrite H3.
  - destruct s1; [done|]. done.
  - rewrite <- En. apply run_len_take.
  - destruct s2; [done|]. done.
  - rewrite <- Ek. apply run_len_take.
Qed.

(** X7. A match of the image pattern is the markup of its two groups:
    an alt text that is not empty and has no []], a URL that is not
    empty and has no [)], between the marks; the text in front of the
    match and behind it is no part of it. *)
Theorem image_match_shape (bos : bool) (s : str) (m : rmatch) :
  try_match re_image bos s = Some m ->
  whole m = image_markup (mgroup m 1) (mgroup m 2)
  /\ mgroup m 1 <> [] /\ ("]" ∉ mgroup m 1)
  /\ mgroup m 2 <> [] /\ (")" ∉ mgroup m 2)
  /\ exists rest, s = whole m ++ rest.
Proof.
  rewrite try_match_image.
  destruct (image_at s) as [[[a u] rest]|] eqn:H; [|done].
  intros [= <-]. apply image_at_shape in H as (-> & Ha & Ha' & Hu & Hu').
  cbn [mgroup whole grps group Nat.eqb]. rewrite consumed_app.
  repeat (split; [done|]). by exists rest.
Qed.

Lemma image_match_shape_sample :
  let s := txt "![A cat](/media/cat.png) and more" in
  let m := Match (txt "![A cat](/media/cat.png)")
             [(2, txt "/media/cat.png"); (1, txt "A cat")] in
  try_match re_image true s = Some m
  /\ whole m = image_markup (mgroup m 1) (mgroup m 2).
Proof.
  intros s m.
  assert (try_match re_image true s = Some m) as H by (by vm_compute).
  split; [exact H|]. exact (proj1 (image_match_shape true s m H)).
Defined.

(** X8. The other way round: the markup of an alt text and a URL of
    that kind is matched where it stands, whole and with these two as
    its groups, whatever follows it. So what the callback writes for a
    reference is a reference again, with the same alt text. *)
Theorem image_markup_is_matched (bos : bool) (a u rest : str) :
  a <> [] -> "]" ∉ a -> u <> [] -> ")" ∉ u ->
  try_match re_image bos (image_markup a u ++ rest)
  = Some (Match (image_markup a u) [(2, u); (1, a)]).
Proof.
  intros Ha Ha' Hu Hu'.
  by rewrite try_match_image, image_at_markup, consumed_app.
Qed.

Lemma image_markup_is_matched_sample :
  (txt "Fig" <> [] /\ (("]" : ascii) ∉ txt "Fig")
   /\ txt "fig.png" <> [] /\ ((")" : ascii) ∉ txt "fig.png"))
  /\ try_match re_image false (image_markup (txt "Fig") (txt "fig.png") ++ txt ")")
     = Some (Match (txt "![Fig](fig.png)") [(2, txt "fig.png"); (1, txt "Fig")]).
Proof.
  assert (("]" : ascii) ∉ txt "Fig") as H1 by (by apply (bool_decide_unpack _)).
  assert ((")" : ascii) ∉ txt "fig.png") as H2 by (by apply (bool_decide_unpack _)).
  split; [done|].
  exact (image_markup_is_matched false (txt "Fig") (txt "fig.png") (txt ")")
           ltac:(done) H1 ltac:(done) H2).
Defined.

(** ** The first eight references, and texts without any *)

Lemma scan_exhausted (re : regex) (s : str) (bos : bool) :
  scan re (Some 0) bos 0 s = map Text s.
Proof.
  revert bos. induction s as [|c s IH]; intros bos; rewrite scan_zero; [done|].
  cbn [exhausted map]. by rewrite IH.
Qed.

Lemma scan_references (items : list (str * str * str)) (tail : str) (n : nat) :
  forallb reference_ok items = true ->
  forall bos,
    scan re_image (Some (length items + n)) bos 0
      (concat (map reference_text items) ++ tail)
    = concat (map reference_pieces items) ++ scan re_image (Some n) false 0 tail.
Proof.
  induction items as [|[[pre a] u] items IH]; intros Hok bos.
  - apply scan_image_bos.
  - cbn [forallb] in Hok. apply andb_true_iff in Hok as [Hi Hok].
    unfold reference_ok in Hi. rewrite !andb_true_iff in Hi.
    destruct Hi as ((((Hpre & Ha) & Ha') & Hu) & Hu').
    apply bool_decide_eq_true in Hpre, Ha, Ha', Hu, Hu'.
    cbn [map concat reference_text reference_pieces length].
    rewrite <- !app_assoc. rewrite scan_image_texts by done. f_equal.
    cbn [app].
    rewrite (scan_hit re_image _ false _ (image_markup a u)
               (concat (map reference_text items) ++ tail)
               (Match (image_markup a u) [(2, u); (1, a)])).
    + cbn [spend pred plus]. f_equal. by apply IH.
    + done.
    + by rewrite try_match_image, image_at_markup, consumed_app.
    + done.
    + done.
    + done.
Qed.

Lemma sub_pieces_app_texts {S : Type} (repl : rmatch -> M S str)
    (ps : list piece) (l : str) :
  forall st,
    sub_pieces repl (ps ++ map Text l) st =
    match sub_pieces repl ps st with
    | (Ok outs, st') => (Ok (outs ++ map (fun c => [c]) l), st')
    | (Raise e, st') => (Raise e, st')
    end.
Proof.
  induction ps as [|[c|m] ps IH]; intros st; cbn [app sub_pieces].
  - rewrite <- (app_nil_r (map Text l)), sub_pieces_texts. cbn [sub_pieces].
    unfold ret. by rewrite app_nil_r.
  - unfold bind, ret. rewrite IH.
    by destruct (sub_pieces repl ps st) as [[outs|e] st'].
  - unfold bind, ret. destruct (repl m st) as [[out|e] st1]; [|done].
    rewrite IH. by destruct (sub_pieces repl ps st1) as [[outs|e] st'].
Qed.

(** X11. Of the references of a text only the first eight are
    handled: what follows eight references, further references
    included, is copied as it is, and nothing is requested for it. *)
Theorem references_after_the_eighth (E : env) (to : str) (w : world)
    (items : list (str * str * str)) (tail : str) :
  length items = 8 -> forallb reference_ok items = true ->
  download_and_replace_markdown_images E
    (concat (map reference_text items) ++ tail) to w =
  match download_and_replace_markdown_images E
          (concat (map reference_text items)) to w with
  | (Ok out, w') => (Ok (out ++ tail), w')
  | (Raise e, w') => (Raise e, w')
  end.
Proof.
  intros Hlen Hok.
  pose proof (scan_references items tail 0 Hok true) as H1.
  pose proof (scan_references items [] 0 Hok true) as H2.
  rewrite Nat.add_0_r, Hlen in H1, H2.
  rewrite scan_exhausted in H1. rewrite app_nil_r in H2. cbn [scan] in H2.
  rewrite app_nil_r in H2.
  unfold download_and_replace_markdown_images, localize_pieces, pieces, bind, ret.
  change (limit_of_count re_MULTILINE) with (Some 8).
  rewrite H1, H2, sub_pieces_app_texts.
  destruct (sub_pieces (repl_and_download_image E to)
              (concat (map reference_pieces items)) ([], w))
    as [[outs|e] [uids' w']]; [|done].
  by rewrite concat_app, concat_singletons.
Qed.

Lemma references_after_the_eighth_sample :
  let ninth := txt " ![Nine](http://a.org/9.png) ![](x)" in
  (length eight_references = 8 /\ forallb reference_ok eight_references = true)
  /\ download_and_replace_markdown_images (sample_env echo_web)
       (concat (map reference_text eight_references) ++ ninth)
       (txt "out") initial_world =
     match download_and_replace_markdown_images (sample_env echo_web)
             (concat (map reference_text eight_references))
             (txt "out") initial_world with
     | (Ok out, w') => (Ok (out ++ ninth), w')
     | (Raise e, w') => (Raise e, w')
     end.
Proof.
  intros ninth. split; [split; by vm_compute|].
  apply references_after_the_eighth; by vm_compute.
Defined.

Lemma scan_no_reference (s : str) :
  no_reference s = true ->
  forall limit bos, scan re_image limit bos 0 s = map Text s.
Proof.
  induction s as [|c s IH]; intros H limit bos.
  - rewrite scan_zero, try_match_image. by destruct (exhausted limit).
  - cbn [no_reference] in H.
    destruct (image_at (c :: s)) as [x|] eqn:Hi; [done|].
    rewrite scan_image_miss by done. cbn [map]. f_equal. by apply IH.
Qed.

Lemma scan_first_reference (s : str) :
  no_reference s = false ->
  exists pre a u rest,
    forall limit bos, exhausted limit = false ->
      scan re_image limit bos 0 s
      = map Text pre ++ Hit (Match (image_markup a u) [(2, u); (1, a)])
        :: scan re_image (spend limit) false 0 rest.
Proof.
  induction s as [|c s IH]; [done|]. cbn [no_reference].
  destruct (image_at (c :: s)) as [[[a u] rest]|] eqn:Hi.
  - intros _. exists [], a, u, rest. intros limit bos Hl. cbn [map app].
    apply image_at_shape in Hi as (Hs & Ha & Ha' & Hu & Hu').
    apply (scan_hit re_image limit bos _ (image_markup a u) rest); try done.
    by rewrite Hs, try_match_image, image_at_markup, consumed_app.
  - intros H. destruct (IH H) as (pre & a & u & rest & Hscan).
    exists (c :: pre), a, u, rest. intros limit bos Hl.
    rewrite scan_image_miss by done. cbn [map app]. f_equal. by apply Hscan.
Qed.

Lemma repl_requests (E : env) (to : str) (m : rmatch) (uids uids' : list str)
    (w w' : world) (r : result str) :
  repl_and_download_image E to m (uids, w) = (r, (uids', w')) ->
  (exists e, r = Raise e) \/ length (requested w') = S (length (requested w)).
Proof.
  intros Hrun. destruct (resolve (mgroup m 2)) as [url|] eqn:Hres.
  2:{ rewrite repl_unresolved in Hrun by done. injection Hrun as <- <- <-.
      left. by eexists. }
  rewrite (repl_resolved E to m uids w url Hres) in Hrun.
  destruct (requests_get E url) as [[|] image|] eqn:Hget.
  - destruct (downloaded_images w !! sha256_hexdigest E image) as [f|] eqn:Hreg.
    + injection Hrun as <- <- <-. right.
      cbn [after_request requested]. rewrite length_app. cbn. lia.
    + cbv zeta in Hrun. injection Hrun as <- <- <-. right.
      cbn [requested]. rewrite length_app. cbn. lia.
  - injection Hrun as <- <- <-. right.
    cbn [after_refusal requested]. rewrite length_app. cbn. lia.
  - injection Hrun as <- <- <-. left. by eexists.
Qed.

Lemma download_plain (E : env) (s to : str) (w : world) :
  no_reference s = true ->
  download_and_replace_markdown_images E s to w = (Ok s, w).
Proof.
  intros Hno.
  unfold download_and_replace_markdown_images, localize_pieces, pieces, bind, ret.
  rewrite scan_no_reference by done.
  rewrite <- (app_nil_r (map Text s)), sub_pieces_texts. cbn [sub_pieces].
  unfold ret. by rewrite app_nil_r, concat_singletons.
Qed.

(** X9. A call returns its text and leaves the world as it was
    exactly when no image reference stands anywhere in the text: then
    nothing is printed, requested or written, and with a reference
    something always is, or the call raises. *)
Theorem download_without_references (E : env) (s to : str) (w : world) :
  download_and_replace_markdown_images E s to w = (Ok s, w)
  <-> no_reference s = true.
Proof.
  split.
  - intros Hrun. destruct (no_reference s) eqn:Hno; [done|]. exfalso.
    destruct (scan_first_reference s Hno) as (pre & a & u & rest & Hscan).
    revert Hrun.
    unfold download_and_replace_markdown_images, localize_pieces, pieces, bind, ret.
    rewrite Hscan by done. rewrite sub_pieces_texts. cbn [sub_pieces].
    unfold bind, ret.
    destruct (repl_and_download_image E to _ ([], w)) as [r1 [u1 w1]] eqn:Hr.
    destruct (repl_requests _ _ _ _ _ _ _ _ Hr) as [(e & ->)|Hlen]; [done|].
    destruct r1 as [out|e]; [|done].
    destruct (sub_pieces (repl_and_download_image E to) _ (u1, w1))
      as [r2 [u2 w2]] eqn:Hs.
    assert (length (requested w1) <= length (requested w2)) as Hle.
    { refine (sub_pieces_invariant E to
                (fun w' => length (requested w1) <= length (requested w'))
                _ _ _ _ _ _ _ Hs (le_n _)).
      intros m uids0 w0 r uids' w' Hr' Hw.
      apply repl_world in Hr' as [->|(url & _ & [->|[->|(image & _ & _ & ->)]])];
        [done|..]; cbn [after_request after_refusal requested];
        rewrite length_app; lia. }
    destruct r2 as [outs|e]; [|done].
    intros [= _ <-]. lia.
  - apply download_plain.
Qed.

(** ** Which runs end without an exception *)





(** ** [get_content] *)

Lemma concat_readlines (s : str) : concat (readlines s) = s.
Proof.
  induction s as [|c s IH]; [done|]. cbn [readlines].
  destruct (Ascii.eqb_spec c LF) as [->|_].
  - cbn [concat app]. by rewrite IH.
  - destruct (readlines s) as [|l ls]; cbn [concat] in *.
    + by rewrite <- IH.
    + by rewrite <- IH.
Qed.

Lemma universal_newlines_no_cr_le (n : nat) :
  forall s, length s <= n -> CR ∉ universal_newlines s.
Proof.
  induction n as [|n IH]; intros s Hn.
  - destruct s; [apply not_elem_of_nil|cbn in Hn; lia].
  - destruct s as [|c s]; [apply not_elem_of_nil|]. cbn [length] in Hn.
    cbn [universal_newlines].
    destruct (Ascii.eqb_spec c CR) as [->|Hc].
    + apply not_elem_of_cons. split; [done|].
      destruct s as [|d s]; [apply not_elem_of_nil|]. cbn [length] in Hn.
      destruct (Ascii.eqb d LF); apply IH; cbn [length]; lia.
    + apply not_elem_of_cons. split; [congruence|]. apply IH. lia.
Qed.

Lemma universal_newlines_no_cr (s : str) : CR ∉ universal_newlines s.
Proof. by apply (universal_newlines_no_cr_le (length s)). Qed.

Lemma universal_newlines_fixed (s : str) : CR ∉ s -> universal_newlines s = s.
Proof.
  induction s as [|c s IH]; [done|]. intros H.
  apply not_elem_of_cons in H as [Hc Hs]. cbn [universal_newlines].
  destruct (Ascii.eqb_spec c CR); [congruence|]. by rewrite IH.
Qed.

Lemma universal_newlines_crlf (s : str) :
  CR ∉ s -> universal_newlines (crlf s) = s.
Proof.
  induction s as [|c s IH]; [done|]. intros H.
  apply not_elem_of_cons in H as [Hc Hs]. cbn [crlf].
  destruct (Ascii.eqb_spec c LF) as [->|Hl].
  - cbn [universal_newlines]. rewrite Ascii.eqb_refl.
    change (Ascii.eqb LF LF) with true. cbn iota. by rewrite IH.
  - cbn [universal_newlines]. destruct (Ascii.eqb_spec c CR); [congruence|].
    by rewrite IH.
Qed.

Lemma behind_one_of_Some (ws : list str) (s rest : str) :
  behind_one_of ws s = Some rest -> exists w, w ∈ ws /\ s = w ++ rest.
Proof.
  induction ws as [|w ws IH]; [done|]. cbn [behind_one_of].
  destruct (strip_prefix w s) as [r|] eqn:H.
  - intros [= <-]. exists w. split; [by left|by apply strip_prefix_Some].
  - intros H'. destruct (IH H') as (w' & Hw & Hs). exists w'. split; [by right|done].
Qed.

Lemma strip_prefix_None_app (w s t : str) :
  length w <= length s -> strip_prefix w s = None -> strip_prefix w (s ++ t) = None.
Proof.
  revert s. induction w as [|c w IH]; intros s Hl; [done|].
  destruct s as [|d s]; [cbn in Hl; lia|]. cbn [strip_prefix app].
  destruct (Ascii.eqb d c); [|done]. apply IH. cbn in Hl. lia.
Qed.

(** The text left is a part of the text given: some of [ws] in front,
    and nothing of [ws] in front of what is left when the fuel was
    enough. *)
Lemma strip_front_spec (ws : list str) (fuel : nat) :
  Forall (fun w => w <> []) ws ->
  forall s, length s <= fuel ->
    (exists front, s = front ++ strip_front ws fuel s)
    /\ behind_one_of ws (strip_front ws fuel s) = None.
Proof.
  intros Hws. induction fuel as [|fuel IH]; intros s Hl.
  - destruct s; [|cbn in Hl; lia]. cbn [strip_front]. split; [by exists []|].
    destruct (behind_one_of ws []) as [r|] eqn:H; [|done].
    apply behind_one_of_Some in H as (w & Hw & Hs).
    rewrite Forall_forall in Hws. specialize (Hws w Hw).
    destruct w; [done|discriminate].
  - cbn [strip_front].
    destruct (behind_one_of ws s) as [rest|] eqn:H; [|split; [by exists []|done] ].
    pose proof H as H'. apply behind_one_of_Some in H' as (w & Hw & ->).
    rewrite Forall_forall in Hws. pose proof (Hws w Hw) as Hne.
    destruct (IH rest) as ((front & Hf) & Hnone).
    { rewrite length_app in Hl. destruct w; [done|]. cbn [length] in Hl. lia. }
    split; [|done]. exists (w ++ front). by rewrite <- app_assoc, <- Hf.
Qed.

Lemma whitespace_nonempty : Forall (fun w : str => w <> []) whitespace.
Proof. by apply (bool_decide_unpack _). Qed.

Lemma whitespace_rev_nonempty :
  Forall (fun w : str => w <> []) (map (@rev ascii) whitespace).
Proof. by apply (bool_decide_unpack _). Qed.

Lemma lstrip_spec (s : str) :
  (exists front, s = front ++ lstrip s) /\ starts_with_space (lstrip s) = false.
Proof.
  destruct (strip_front_spec whitespace (length s) whitespace_nonempty s (le_n _))
    as [H1 H2].
  split; [done|]. unfold starts_with_space, lstrip. by rewrite H2.
Qed.

Lemma rstrip_spec (s : str) :
  (exists back, s = rstrip s ++ back) /\ ends_with_space (rstrip s) = false.
Proof.
  destruct (strip_front_spec (map (@rev ascii) whitespace) (length s)
              whitespace_rev_nonempty (rev s)) as [[front H1] H2].
  { by rewrite length_rev. }
  split.
  - exists (rev front). unfold rstrip. rewrite <- rev_app_distr, <- H1.
    by rewrite rev_involutive.
  - unfold ends_with_space, rstrip. by rewrite rev_involutive, H2.
Qed.

Lemma strip_prefix_app_Some (w a r b : str) :
  strip_prefix w a = Some r -> strip_prefix w (a ++ b) = Some (r ++ b).
Proof.
  intros H. apply strip_prefix_Some in H as ->.
  by rewrite <- app_assoc, strip_prefix_app.
Qed.

Lemma behind_one_of_app (ws : list str) (a b r : str) :
  behind_one_of ws a = Some r -> exists r', behind_one_of ws (a ++ b) = Some r'.
Proof.
  induction ws as [|w ws IH]; [done|]. cbn [behind_one_of].
  destruct (strip_prefix w a) as [r0|] eqn:H.
  - intros _. rewrite (strip_prefix_app_Some _ _ _ b H). by eexists.
  - intros H'. destruct (strip_prefix w (a ++ b)); [by eexists|by apply IH].
Qed.

Lemma strip_front_fixed (ws : list str) (fuel : nat) (s : str) :
  behind_one_of ws s = None -> strip_front ws fuel s = s.
Proof. intros H. destruct fuel; [done|]. cbn [strip_front]. by rewrite H. Qed.

Lemma strip_spec (s : str) :
  (exists front back, s = front ++ strip s ++ back)
  /\ starts_with_space (strip s) = false
  /\ ends_with_space (strip s) = false.
Proof.
  unfold strip.
  destruct (lstrip_spec s) as [[front Hf] Hl].
  destruct (rstrip_spec (lstrip s)) as [[back Hb] Hr].
  split; [|split; [|done] ].
  - exists front, back. by rewrite <- Hb.
  - unfold starts_with_space in *.
    destruct (behind_one_of whitespace (rstrip (lstrip s))) as [r|] eqn:H; [|done].
    destruct (behind_one_of_app _ _ back _ H) as [r' H'].
    rewrite <- Hb in H'. by rewrite H' in Hl.
Qed.

Lemma strip_fixed (s : str) :
  starts_with_space s = false -> ends_with_space s = false -> strip s = s.
Proof.
  unfold starts_with_space, ends_with_space, strip, lstrip, rstrip.
  intros H1 H2.
  destruct (behind_one_of whitespace s) eqn:E1; [done|].
  rewrite (strip_front_fixed _ _ _ E1).
  destruct (behind_one_of (map (@rev ascii) whitespace) (rev s)) eqn:E2; [done|].
  by rewrite (strip_front_fixed _ _ _ E2), rev_involutive.
Qed.

Lemma get_content_is_clean_aux (decoded : str) :
  (CR ∉ get_content decoded)
  /\ starts_with_space (get_content decoded) = false
  /\ ends_with_space (get_content decoded) = false.
Proof.
  unfold get_content. rewrite concat_readlines.
  destruct (strip_spec (universal_newlines decoded)) as ((front & back & H) & Hs & He).
  split; [|done].
  pose proof (universal_newlines_no_cr decoded) as Hcr.
  rewrite H in Hcr. rewrite !not_elem_of_app in Hcr. tauto.
Qed.

(** X16. What [get_content] returns has no carriage return in it, and
    neither starts nor ends with white space: every line end is a line
    feed, whatever the file had. *)
Theorem get_content_is_clean (decoded : str) :
  (CR ∉ get_content decoded)
  /\ starts_with_space (get_content decoded) = false
  /\ ends_with_space (get_content decoded) = false.
Proof.
  unfold get_content. rewrite concat_readlines.
  destruct (strip_spec (universal_newlines decoded)) as ((front & back & H) & Hs & He).
  split; [|done].
  pose proof (universal_newlines_no_cr decoded) as Hcr.
  rewrite H in Hcr. rewrite !not_elem_of_app in Hcr. tauto.
Qed.

(** X17. A text with line feeds as line ends gives the same content
    when a carriage return is put in front of each of them; and what
    [get_content] returns is a text it returns unchanged. *)
Theorem get_content_line_ends (decoded : str) :
  CR ∉ decoded ->
  get_content (crlf decoded) = get_content decoded
  /\ get_content (get_content decoded) = get_content decoded.
Proof.
  intros H. split.
  - unfold get_content. rewrite !concat_readlines.
    by rewrite universal_newlines_crlf, universal_newlines_fixed.
  - destruct (get_content_is_clean_aux decoded) as (Hcr & Hs & He).
    unfold get_content at 1. rewrite concat_readlines.
    rewrite universal_newlines_fixed by done. by apply strip_fixed.
Qed.

Lemma get_content_line_ends_sample :
  let s := [LF] ++ txt "  Title" ++ [LF] ++ txt "=====" ++ [LF; LF] ++ txt "Text " ++ [LF] in
  (CR ∉ s)
  /\ get_content (crlf s) = txt "Title" ++ [LF] ++ txt "=====" ++ [LF; LF] ++ txt "Text"
  /\ get_content (crlf s) = get_content s.
Proof.
  intros s.
  assert (CR ∉ s) as H by (by apply (bool_decide_unpack _)).
  split; [exact H|]. split; [by vm_compute|].
  exact (proj1 (get_content_line_ends s H)).
Defined.

(** ** [zds_to_grav] on an archive *)



Lemma choose_slug_of (slug : option str) (m : manifest) (w : world) :
  choose_slug slug m w =
  match slug_of slug m with
  | Some s => (Ok s, w)
  | None =>
      (Raise (AttributeError "type object 'datetime.time' has no attribute 'time'"), w)
  end.
Proof.
  unfold choose_slug, slug_of.
  destruct slug as [[|c s]|]; try done; by destruct (m_slug m).
Qed.

Lemma lstrip_chars_repeat (c : ascii) (k : nat) (s : str) :
  lstrip_chars [c] (repeat c k ++ s) = lstrip_chars [c] s.
Proof.
  induction k as [|k IH]; [done|]. cbn [repeat app lstrip_chars].
  rewrite bool_decide_eq_true_2 by (by left). done.
Qed.

(** X18. Slashes at the end of the directory given with [--to] make
    no difference to what a run does. *)
Theorem to_trailing_slashes (E : env) (yaml : str) (m : manifest) (a : archive)
    (template_name : str) (lang slug : option str) (to : str) (k : nat)
    (w : world) :
  convert E yaml m a template_name lang slug (to ++ repeat "/" k) w
  = convert E yaml m a template_name lang slug to w.
Proof.
  assert (forall s, output_directory (to ++ repeat "/" k) s = output_directory to s)
    as H.
  { intros s. unfold output_directory, rstrip_chars.
    by rewrite rev_app_distr, rev_repeat, lstrip_chars_repeat. }
  unfold convert. destruct (Z.ltb (m_version m) 2); [done|].
  destruct (negb _); [done|].
  unfold bind.
  destruct (choose_slug slug m w) as [[s|e] w1]; [|done]. by rewrite H.
Qed.

Lemma convert_supported (E : env) (yaml : str) (m : manifest) (a : archive)
    (template_name : str) (lang slug : option str) (to : str) (w : world) :
  supported m = true ->
  convert E yaml m a template_name lang slug to w =
  match slug_of slug m with
  | None =>
      (Raise (AttributeError "type object 'datetime.time' has no attribute 'time'"), w)
  | Some s =>
      match build_markdown_content E a (output_directory to s) w with
      | (Ok body, w1) =>
          (Ok tt,
           World (downloaded_images w1)
             (files w1 ++ [Written (output_directory to s)
                             (markdown_name template_name lang)
                             ((txt "---" ++ [LF] ++ yaml ++ txt "---" ++ [LF; LF])
                              ++ strip body)])
             (console w1
              ++ [(false, txt "Markdown file wrote to "
                          ++ path_join (output_directory to s)
                               (markdown_name template_name lang)
                          ++ txt " successfully")])
             (requested w1))
      | (Raise e, w1) => (Raise e, w1)
      end
  end.
Proof.
  unfold supported, convert. intros H. apply andb_true_iff in H as [H1 H2].
  apply negb_true_iff in H1. rewrite H1, H2. cbn [negb].
  unfold bind. rewrite choose_slug_of.
  destruct (slug_of slug m) as [s|]; [|done].
  by destruct (build_markdown_content E a (output_directory to s) w) as [[body|e] w1].
Qed.

(** X19. A run that stops before anything is requested or written. On
    a manifest of a version below 2, or of a type other than ARTICLE
    and OPINION, it prints one line on the error stream and returns.
    On a manifest that passes (any version from 2 on does), without a
    slug from [--slug] or the manifest, it raises [AttributeError]:
    the default slug calls [time.time()] on the class [datetime.time].
    The exception is reported on the error stream. *)
Theorem run_stops_early (E : env) (request_text : str -> str) (yaml : str)
    (m : manifest) (a : archive) (zds_archive template_name : str)
    (lang slug to : option str) (w : world) :
  supported m = false \/ slug_of slug m = None ->
  let run := zds_to_grav_archive E request_text yaml m a zds_archive
               template_name lang slug to w in
  downloaded_images (snd run) = downloaded_images w
  /\ files (snd run) = files w
  /\ requested (snd run) = requested w
  /\ (exists line, console (snd run) = console w ++ [(true, line)])
  /\ fst run
     = if supported m
       then Raise (AttributeError "type object 'datetime.time' has no attribute 'time'")
       else Ok tt.
Proof.
  intros H run. unfold run, zds_to_grav_archive, reporting.
  destruct (supported m) eqn:Hs.
  - destruct H as [H|H]; [done|].
    rewrite convert_supported, H by done. cbn [fst snd downloaded_images files requested console].
    repeat (split; [done|]). split; [by eexists|done].
  - unfold supported in Hs. unfold convert.
    destruct (Z.ltb (m_version m) 2) eqn:Hv.
    + cbn [echo fst snd downloaded_images files requested console].
      repeat (split; [done|]). split; [by eexists|done].
    + cbn [negb andb] in Hs. rewrite Hs. cbn [negb].
      cbn [echo fst snd downloaded_images files requested console].
      repeat (split; [done|]). split; [by eexists|done].
Qed.

Lemma run_stops_early_sample :
  let m := Manifest 3 (txt "ARTICLE") None in
  let run := zds_to_grav_archive (sample_env echo_web) (fun url => url) (txt "")
               m two_figures (txt "article.zip") (txt "item") None (Some [])
               (Some (txt "out")) initial_world in
  (supported m = false \/ slug_of (Some []) m = None)
  /\ files (snd run) = [] /\ requested (snd run) = []
  /\ console (snd run)
     = [(true, txt "Error while processing archive: type object 'datetime.time' has no attribute 'time'")]
  /\ fst run
     = Raise (AttributeError "type object 'datetime.time' has no attribute 'time'").
Proof.
  intros m run.
  pose proof (run_stops_early (sample_env echo_web) (fun url => url) (txt "")
                m two_figures (txt "article.zip") (txt "item") None (Some [])
                (Some (txt "out")) initial_world (or_intror eq_refl))
    as (_ & H1 & H2 & _ & H3).
  split; [by right|]. split; [exact H1|]. split; [exact H2|].
  split; [by vm_compute|exact H3].
Defined.

Lemma files_in_directory (E : env) (to : str) (a : archive) (w : world) :
  Forall (fun x => w_dir x = to) (files w) ->
  Forall (fun x => w_dir x = to) (files (snd (build_markdown_content E a to w))).
Proof.
  apply (build_invariant E to (fun w => Forall (fun x => w_dir x = to) (files w))).
  intros m uids w0 r uids' w' Hr Hw.
  apply repl_world in Hr as [->|(url & _ & [->|[->|(image & _ & _ & ->)]])];
    [done..|].
  cbn [files]. apply Forall_app. split; [done|]. by constructor.
Qed.

Lemma dirname_without_slash (p : str) : "/" ∉ p -> dirname p = [].
Proof.
  intros H. unfold dirname. rewrite last_field_free by done.
  by rewrite Nat.sub_diag, take_0.
Qed.

(** X20. An archive named without a directory, and no [--to]: the
    directory of the archive is the empty text, to which line 161 puts
    a slash, so that every file of the run, images and Markdown file,
    is written to the directory of the slug under the root of the file
    system, not under the current directory. *)
Theorem archive_name_without_directory (E : env) (request_text : str -> str)
    (yaml : str) (m : manifest) (a : archive) (zds_archive template_name : str)
    (lang slug : option str) (s : str) :
  "/" ∉ zds_archive -> slug_of slug m = Some s ->
  default_to zds_archive None = []
  /\ Forall (fun x => w_dir x = "/" :: s ++ ["/"])
       (files (snd (zds_to_grav_archive E request_text yaml m a zds_archive
                      template_name lang slug None initial_world))).
Proof.
  intros Hp Hs.
  assert (default_to zds_archive None = []) as Hd
    by (by apply dirname_without_slash).
  split; [done|].
  unfold zds_to_grav_archive. rewrite Hd.
  assert (forall r w, convert E yaml m a template_name lang slug [] initial_world = (r, w) ->
            Forall (fun x => w_dir x = "/" :: s ++ ["/"]) (files w)) as H.
  { intros r w. destruct (supported m) eqn:Hm.
    - rewrite convert_supported, Hs by done.
      change (output_directory [] s) with ("/" :: s ++ ["/"]).
      pose proof (files_in_directory E ("/" :: s ++ ["/"]) a initial_world
                    (Forall_nil_2 _)) as Hinv.
      destruct (build_markdown_content E a ("/" :: s ++ ["/"]) initial_world)
        as [[body|e] w1]; cbn [snd] in Hinv; intros [= <- <-]; [|done].
      cbn [files]. apply Forall_app. split; [done|]. by constructor.
    - unfold supported in Hm. unfold convert.
      destruct (Z.ltb (m_version m) 2); [by intros [= <- <-]|].
      cbn [negb andb] in Hm. rewrite Hm. cbn [negb]. by intros [= <- <-]. }
  unfold reporting.
  destruct (convert E yaml m a template_name lang slug [] initial_world)
    as [[x|e] w] eqn:Hc; cbn [snd files]; by eapply H.
Qed.

Lemma archive_name_without_directory_sample :
  let run := zds_to_grav_archive (sample_env echo_web) (fun url => url) (txt "")
               (Manifest 2 (txt "OPINION") (Some (txt "my-post")))
               two_figures (txt "article.zip") (txt "item") None None None
               initial_world in
  (("/" ∉ txt "article.zip")
   /\ slug_of None (Manifest 2 (txt "OPINION") (Some (txt "my-post")))
      = Some (txt "my-post"))
  /\ map w_dir (files (snd run)) = [txt "/my-post/"; txt "/my-post/"; txt "/my-post/"]
  /\ Forall (fun x => w_dir x = txt "/my-post/") (files (snd run)).
Proof.
  intros run.
  assert ("/" ∉ txt "article.zip") as H by (by apply (bool_decide_unpack _)).
  split; [by split|]. split; [by vm_compute|].
  exact (proj2 (archive_name_without_directory (sample_env echo_web)
                  (fun url => url) (txt "")
                  (Manifest 2 (txt "OPINION") (Some (txt "my-post")))
                  two_figures (txt "article.zip") (txt "item") None None
                  (txt "my-post") H eq_refl)).
Defined.



(** ** The patterns *)

Lemma match_not_empty_sample :
  let m := Match (txt "# A" ++ [LF]) [(3, [LF]); (2, txt "A"); (1, [])] in
  (re_title_1 ∈ patterns
   /\ try_match re_title_1 true (txt "# A" ++ [LF] ++ txt "B") = Some m)
  /\ whole m <> [].
Proof.
  intros m.
  assert (re_title_1 ∈ patterns) as Hin by (do 4 right; left).
  assert (try_match re_title_1 true (txt "# A" ++ [LF] ++ txt "B") = Some m)
    as H by (by vm_compute).
  split; [by split|]. exact (match_not_empty re_title_1 true _ m Hin H).
Defined.
